(** * The report-data build script: CSV parsing and snapshot assembly

    A shallow embedding of [scripts/build-report-data.ts].  JavaScript
    strings are sequences of UTF-16 code units, modelled as [list N].
    An object used as a [Record<string, ...>] is a finite map from
    strings; its key order plays no part in what is proved here.  The
    network, the clock and the file system are an explicit environment
    of [main]. *)

From Stdlib Require Import ZArith NArith Lia Ascii String DecimalString.
From Stdlib Require Import Floats Uint63 DecimalPos DecimalZ.
From stdpp Require Import base option list gmap.

Local Open Scope N_scope.

(** ** Strings *)

(** A string literal of the source, as code units. *)
Definition str (s : string) : list N :=
  List.map N_of_ascii (list_ascii_of_string s).

Definition DQUOTE : N := 34.
Definition COMMA : N := 44.
Definition LF : N := 10.
Definition CR : N := 13.

(** ECMAScript [WhiteSpace] and [LineTerminator] code points: what
    [String.prototype.trim] strips. *)
Definition isWhiteSpace (c : N) : bool :=
  (c =? 9) || (c =? 10) || (c =? 11) || (c =? 12) || (c =? 13) || (c =? 32)
  || (c =? 160) || (c =? 5760) || ((8192 <=? c) && (c <=? 8202))
  || (c =? 8232) || (c =? 8233) || (c =? 8239) || (c =? 8287)
  || (c =? 12288) || (c =? 65279).

Fixpoint trimStart (s : list N) : list N :=
  match s with
  | [] => []
  | c :: rest => if isWhiteSpace c then trimStart rest else s
  end.

Definition trimEnd (s : list N) : list N :=
  reverse (trimStart (reverse s)).

Definition trim (s : list N) : list N := trimEnd (trimStart s).

(** Truthiness of a string: the empty string is the only falsy one. *)
Definition truthy (s : list N) : bool :=
  match s with [] => false | _ :: _ => true end.

(** ** Row objects *)

Definition PROTO : list N := Eval cbv in str "__proto__".

(** [obj[key] = value] on an object created by the literal [{}], for a
    string or array [value].  Every key becomes an own property, except
    ["__proto__"]: that name is an accessor inherited from
    [Object.prototype], whose setter never creates an own property (it
    ignores a string, and an array would become the prototype). *)
Definition obj_set {V : Type} (obj : gmap (list N) V) (key : list N)
    (value : V) : gmap (list N) V :=
  if decide (key = PROTO) then obj else <[key := value]> obj.

(** ** parseCSVRow *)

Fixpoint rowLoop (row : list N) (values : list (list N)) (current : list N)
    (inQuotes : bool) : list (list N) :=
  match row with
  | [] => values ++ [current]
  | char :: rest =>
      if char =? DQUOTE then
        match rest with
        | next :: rest' =>
            if inQuotes && (next =? DQUOTE)
            then rowLoop rest' values (current ++ [DQUOTE]) inQuotes
            else rowLoop rest values current (negb inQuotes)
        | [] => rowLoop rest values current (negb inQuotes)
        end
      else if (char =? COMMA) && negb inQuotes then
        rowLoop rest (values ++ [current]) [] inQuotes
      else
        rowLoop rest values (current ++ [char]) inQuotes
  end.

Definition parseCSVRow (row : list N) : list (list N) :=
  rowLoop row [] [] false.

(** ** parseCSV *)

(** [lines.push(currentLine)] guarded by [currentLine.trim()]. *)
Definition pushLine (lines : list (list N)) (currentLine : list N)
  : list (list N) :=
  if truthy (trim currentLine) then lines ++ [currentLine] else lines.

(** The first loop of [parseCSV] together with the push that follows it:
    the text is cut into logical lines. *)
Fixpoint lineLoop (csvText : list N) (lines : list (list N))
    (currentLine : list N) (inQuotes : bool) : list (list N) :=
  match csvText with
  | [] => pushLine lines currentLine
  | char :: rest =>
      if char =? DQUOTE then
        match rest with
        | next :: rest' =>
            if inQuotes && (next =? DQUOTE)
            then lineLoop rest' lines (currentLine ++ [DQUOTE]) inQuotes
            else lineLoop rest lines (currentLine ++ [char]) (negb inQuotes)
        | [] => lineLoop rest lines (currentLine ++ [char]) (negb inQuotes)
        end
      else if (char =? LF) && negb inQuotes then
        lineLoop rest (pushLine lines currentLine) [] inQuotes
      else if (char =? CR) && negb inQuotes then
        lineLoop rest lines currentLine inQuotes
      else
        lineLoop rest lines (currentLine ++ [char]) inQuotes
  end.

Definition splitLines (csvText : list N) : list (list N) :=
  lineLoop csvText [] [] false.

(** [headers[j]?.trim()]: [None] stands for [undefined]. *)
Definition headerAt (headers : list (list N)) (j : nat) : option (list N) :=
  trim <$> headers !! j.

(** [values[j]?.trim() ?? ""]. *)
Definition valueAt (values : list (list N)) (j : nat) : list N :=
  default [] (trim <$> values !! j).

(** One turn of the loop over [j]. *)
Definition fieldStep (headers values : list (list N))
    (acc : gmap (list N) (list N) * bool) (j : nat)
  : gmap (list N) (list N) * bool :=
  let header := headerAt headers j in
  let value := valueAt values j in
  if from_option truthy false header && truthy value
  then (obj_set acc.1 (default [] header) value, true)
  else acc.

(** The object and the [rowHasData] flag after the first [n] turns of
    the loop over [j]. *)
Definition rowUpTo (headers values : list (list N)) (n : nat)
  : gmap (list N) (list N) * bool :=
  foldl (fieldStep headers values) (∅, false) (seq 0 n).

(** The object built for one data line, and its [rowHasData] flag. *)
Definition buildRow (headers values : list (list N))
  : gmap (list N) (list N) * bool :=
  rowUpTo headers values (length headers).

Definition rowStep (headers : list (list N))
    (results : list (gmap (list N) (list N))) (line : list N)
  : list (gmap (list N) (list N)) :=
  let values := parseCSVRow line in
  let '(obj, rowHasData) := buildRow headers values in
  if rowHasData then results ++ [obj] else results.

Definition parseCSV (csvText : list N) : list (gmap (list N) (list N)) :=
  let lines := splitLines csvText in
  if (length lines <? 2)%nat then []
  else
    let headers := parseCSVRow (default [] (lines !! 0%nat)) in
    foldl (rowStep headers) [] (drop 1 lines).


(** ** Fetching one sheet *)

Record SheetConfig := {
  key : list N;
  name : list N;
  gid : list N
}.

#[global] Instance SheetConfig_eq_dec : EqDecision SheetConfig.
Proof. solve_decision. Defined.

Definition SHEET_CONFIGS : list SheetConfig := Eval cbv in [
  {| key := str "output"; name := str "output"; gid := str "0" |};
  {| key := str "ebitda_timeseries"; name := str "EBITDA Timeseries";
     gid := str "845629928" |};
  {| key := str "revenue_timeseries"; name := str "Revenue Timeseries";
     gid := str "755104021" |};
  {| key := str "employee_timeseries"; name := str "Employee timeseries";
     gid := str "12460386" |};
  {| key := str "ev_timeseries"; name := str "EV timeseries";
     gid := str "790875073" |};
  {| key := str "mafia"; name := str "Mafia"; gid := str "1431246161" |};
  {| key := str "founders"; name := str "founders"; gid := str "275207722" |};
  {| key := str "all_vc_rounds"; name := str "All VC Rounds";
     gid := str "62762089" |}
].

(** What the network does with the request for one sheet: [fetch] rejects
    (transport failure), or it resolves to a response with its [ok] flag
    and a body, [None] when [response.text()] rejects. *)
Inductive FetchOutcome :=
  | FetchRejected
  | FetchResponse (ok : bool) (body : option (list N)).

(** A computation that returns or throws. *)
Inductive result (A : Type) :=
  | Ok (a : A)
  | Throw.
Arguments Ok {A} a.
Arguments Throw {A}.

Definition fetchSheetData (net : SheetConfig -> FetchOutcome)
    (config : SheetConfig) : result (list (gmap (list N) (list N))) :=
  match net config with
  | FetchRejected => Throw
  | FetchResponse ok body =>
      if negb ok then Throw
      else match body with
           | None => Throw
           | Some csvText => Ok (parseCSV csvText)
           end
  end.

(** ** Numbers *)

(** The double of a small non-negative integer (exact below 2^53). *)
Definition toNumber (z : Z) : float := PrimFloat.of_uint63 (Uint63.of_Z z).

(** [Math.ceil] on a finite double, as the integer it denotes: a finite
    double is [±m·2^e].  Dividing a finite double by 3 gives a finite
    double, so the last case is not reached from [quarterNumber]. *)
Definition Math_ceil (x : float) : Z :=
  match Prim2SF x with
  | S754_zero _ => 0
  | S754_finite s m e =>
      let n := if s then Z.neg m else Z.pos m in
      if (0 <=? e)%Z then (n * 2 ^ e)%Z else (- ((- n) / 2 ^ (- e)))%Z
  | _ => 0%Z
  end.

(** [Math.ceil((now.getMonth() + 1) / 3)], from the value of [getMonth()]. *)
Definition quarterNumber (getMonth : Z) : Z :=
  Math_ceil (PrimFloat.div (PrimFloat.add (toNumber getMonth) (toNumber 1))
                           (toNumber 3)).

(** An integer in a template string: its decimal digits, with a minus
    sign when negative. *)
Definition numberToString (z : Z) : list N :=
  str (NilZero.string_of_int (Z.to_int z)).

Definition reportingQuarter (year quarter : Z) : list N :=
  numberToString year ++ str "Q" ++ numberToString quarter.

(** ** main *)

Record Meta := {
  generated_at : list N;
  source_sheet_id : list N;
  reporting_quarter : list N;
  reporting_year : Z;
  reporting_quarter_number : Z;
  schema_version : list N
}.

Record Output := {
  meta : Meta;
  sheets : gmap (list N) (list (gmap (list N) (list N)));
  config_schema_version : list N
}.

(** What a run of the script meets outside itself. *)
Record Env := {
  net : SheetConfig -> FetchOutcome;
  getFullYear : Z;
  getMonth : Z;
  toISOString : list N;
  existsSync_publicDir : bool;
  mkdirSync_ok : bool;
  writeFileSync_ok : bool
}.

Definition SHEET_ID : list N :=
  Eval cbv in str "1_DZZfguLRiZe4MBg78Ah-ftSuaRMfuj5QlieKsttyGg".

(** The [try]/[catch] around one sheet. *)
Definition sheetStep (net : SheetConfig -> FetchOutcome)
    (sheetsData : gmap (list N) (list (gmap (list N) (list N))))
    (config : SheetConfig)
  : gmap (list N) (list (gmap (list N) (list N))) :=
  match fetchSheetData net config with
  | Ok rows => obj_set sheetsData (key config) rows
  | Throw => obj_set sheetsData (key config) []
  end.

Definition collectSheets (net : SheetConfig -> FetchOutcome)
    (configs : list SheetConfig)
  : gmap (list N) (list (gmap (list N) (list N))) :=
  foldl (sheetStep net) ∅ configs.

Definition buildOutput (env : Env) : Output :=
  let sheetsData := collectSheets (net env) SHEET_CONFIGS in
  let year := getFullYear env in
  let quarterNumber := quarterNumber (getMonth env) in
  {| meta := {| generated_at := toISOString env;
                source_sheet_id := SHEET_ID;
                reporting_quarter := reportingQuarter year quarterNumber;
                reporting_year := year;
                reporting_quarter_number := quarterNumber;
                schema_version := str "2.0" |};
     sheets := sheetsData;
     config_schema_version := str "1.0" |}.

(** How a run ends: the exit code of the process and the snapshot written
    to [public/report-data.json], if one was. *)
Record Run := {
  exitCode : Z;
  written : option Output
}.

Definition main (env : Env) : Run :=
  let output := buildOutput env in
  if negb (existsSync_publicDir env) && negb (mkdirSync_ok env)
  then {| exitCode := 1; written := None |}
  else if negb (writeFileSync_ok env)
  then {| exitCode := 1; written := None |}
  else {| exitCode := 0; written := Some output |}.


(** ** The written form of a CSV line *)

(** A cell as it is written on a line: bare, or between double quotes
    with every quote of its content doubled. *)
Inductive cell :=
  | Plain (text : list N)
  | Quoted (text : list N).

Definition content (c : cell) : list N :=
  match c with Plain text | Quoted text => text end.

Fixpoint escape (text : list N) : list N :=
  match text with
  | [] => []
  | x :: rest =>
      if x =? DQUOTE then DQUOTE :: DQUOTE :: escape rest
      else x :: escape rest
  end.

Definition render (c : cell) : list N :=
  match c with
  | Plain text => text
  | Quoted text => DQUOTE :: escape text ++ [DQUOTE]
  end.

(** Cells joined by commas. *)
Fixpoint joinCells (cells : list (list N)) : list N :=
  match cells with
  | [] => []
  | [c] => c
  | c :: rest => c ++ COMMA :: joinCells rest
  end.

(** A line written as cells. *)
Definition renderLine (cells : list cell) : list N :=
  joinCells (render <$> cells).

(** Lines joined by line feeds. *)
Fixpoint joinLines (lines : list (list N)) : list N :=
  match lines with
  | [] => []
  | [line] => line
  | line :: rest => line ++ LF :: joinLines rest
  end.

(** The rows one retained data line adds to the table: one or none. *)
Definition rowsOfLine (headers : list (list N)) (line : list N)
  : list (gmap (list N) (list N)) :=
  rowStep headers [] line.

(** A bare cell holds no quote and no comma. *)
Definition wfCell (c : cell) : Prop :=
  match c with
  | Plain text => (DQUOTE ∉ text) ∧ (COMMA ∉ text)
  | Quoted _ => True
  end.

(** A cell that the line splitter leaves on its line as written: a bare
    cell with no quote, comma, line feed or carriage return, or a quoted
    cell with no quote in its content. *)
Definition lineCell (c : cell) : Prop :=
  match c with
  | Plain text =>
      (DQUOTE ∉ text) ∧ (COMMA ∉ text) ∧ (LF ∉ text) ∧ (CR ∉ text)
  | Quoted text => DQUOTE ∉ text
  end.

(** Some carriage return of the text is met in quoted mode: the scan of
    [parseCSV]'s first loop, started in mode [inQuotes]. *)
Fixpoint crInQuotes (csvText : list N) (inQuotes : bool) : bool :=
  match csvText with
  | [] => false
  | char :: rest =>
      if char =? DQUOTE then
        match rest with
        | next :: rest' =>
            if inQuotes && (next =? DQUOTE)
            then crInQuotes rest' inQuotes
            else crInQuotes rest (negb inQuotes)
        | [] => false
        end
      else if (char =? CR) && inQuotes then true
      else crInQuotes rest inQuotes
  end.

(** A text does not go on with a double quote. *)
Definition noQuoteAhead (rest : list N) : Prop :=
  match rest with
  | [] => True
  | next :: _ => next ≠ DQUOTE
  end.

(** Column [j] is the last of the first [n] columns that is named [k] and
    holds a non-empty cell. *)
Definition lastFilled (headers values : list (list N)) (n : nat)
    (k : list N) (j : nat) : Prop :=
  (j < n)%nat ∧ headerAt headers j = Some k ∧ valueAt values j ≠ [] ∧
  ∀ j', (j < j' < n)%nat → headerAt headers j' = Some k →
        valueAt values j' = [].

(** Under the name [k], the row of a data line holds the cell of the last
    column named [k] whose cell is not empty. *)
Definition storesLastFilled (headers values : list (list N)) (k : list N)
  : Prop :=
  ∀ j, lastFilled headers values (length headers) k j →
       (buildRow headers values).1 !! k = Some (valueAt values j).

(** No value of the table holds a carriage return. *)
Definition valuesFreeOfCR (csvText : list N) : Prop :=
  ∀ row k v, row ∈ parseCSV csvText → row !! k = Some v → CR ∉ v.

(** The table a sheet contributes: its rows, or none when fetching threw. *)
Definition sheetRows (net : SheetConfig -> FetchOutcome)
    (config : SheetConfig) : list (gmap (list N) (list N)) :=
  match fetchSheetData net config with
  | Ok rows => rows
  | Throw => []
  end.

Definition isDigit (c : N) : bool := (48 <=? c) && (c <=? 57).

(** The regular expression [^\d{4}Q[1-4]$]. *)
Definition matchesQuarterPattern (s : list N) : bool :=
  match s with
  | [d1; d2; d3; d4; c; q] =>
      isDigit d1 && isDigit d2 && isDigit d3 && isDigit d4
      && (c =? 81) && (49 <=? q) && (q <=? 52)
  | _ => false
  end.

(** ** Reference operations *)

(** A list of fields with [current] put in front of the first one. *)
Definition prependFirst (current : list N) (fields : list (list N))
  : list (list N) :=
  match fields with
  | [] => [current]
  | first :: others => (current ++ first) :: others
  end.

(** A text cut at every [sep], the separators left out: the pieces of
    [s.split(sep)] for a one-character separator. *)
Fixpoint splitOn (sep : N) (s : list N) : list (list N) :=
  match s with
  | [] => [[]]
  | c :: rest =>
      if c =? sep then [] :: splitOn sep rest
      else prependFirst [c] (splitOn sep rest)
  end.

Definition notCR (c : N) : bool := negb (c =? CR).

(** The mode in which the first loop of [parseCSV] leaves a text, started
    in mode [inQuotes]. *)
Fixpoint inQuotesAfter (csvText : list N) (inQuotes : bool) : bool :=
  match csvText with
  | [] => inQuotes
  | char :: rest =>
      if char =? DQUOTE then
        match rest with
        | next :: rest' =>
            if inQuotes && (next =? DQUOTE)
            then inQuotesAfter rest' inQuotes
            else inQuotesAfter rest (negb inQuotes)
        | [] => negb inQuotes
        end
      else inQuotesAfter rest inQuotes
  end.

(** A table written out with every cell quoted: the header names, then
    one line per row. *)
Definition quotedLine (values : list (list N)) : list cell :=
  Quoted <$> values.

Definition quotedTable (names : list (list N)) (rows : list (list (list N)))
  : list N :=
  joinLines (renderLine <$> quotedLine names :: (quotedLine <$> rows)).

(** The row object a reader expects of a data row: each name with the
    trimmed value of its column, the empty ones left out. *)
Definition expectedRow (names values : list (list N))
  : gmap (list N) (list N) :=
  list_to_map (filter (λ kv, kv.2 ≠ []) (zip names (trim <$> values))).

(** A string does not start with white space. *)
Definition startsClean (s : list N) : Prop :=
  match s with [] => True | c :: _ => isWhiteSpace c = false end.

(** * Properties *)

(** ** trim *)

Lemma trimStart_blank (s : list N) :
  forallb isWhiteSpace s = true → trimStart s = [].
Proof.
  induction s as [|c s IH]; simpl; [done|].
  intros [Hc Hs]%andb_prop. rewrite Hc. auto.
Qed.

Lemma trim_blank (s : list N) :
  forallb isWhiteSpace s = true → trim s = [].
Proof. intros H. unfold trim. by rewrite (trimStart_blank s H). Qed.

Lemma trimStart_elem (s : list N) (x : N) :
  x ∈ s → isWhiteSpace x = false → x ∈ trimStart s.
Proof.
  induction s as [|c s IH]; simpl; [done|].
  intros Hin Hx. destruct (isWhiteSpace c) eqn:Hc; [|done].
  apply elem_of_cons in Hin as [->|Hin]; [congruence|auto].
Qed.

Lemma trimStart_suffix (s : list N) : trimStart s `suffix_of` s.
Proof.
  induction s as [|c s IH]; simpl; [done|].
  destruct (isWhiteSpace c); [by apply suffix_cons_r|done].
Qed.

Lemma trimEnd_elem (s : list N) (x : N) :
  x ∈ s → isWhiteSpace x = false → x ∈ trimEnd s.
Proof.
  intros Hin Hx. unfold trimEnd. apply elem_of_reverse, trimStart_elem; [|done].
  by apply elem_of_reverse.
Qed.

Lemma trim_elem (s : list N) (x : N) :
  x ∈ s → isWhiteSpace x = false → x ∈ trim s.
Proof. intros. by apply trimEnd_elem; [apply trimStart_elem|]. Qed.

Lemma trim_subseteq (s : list N) (x : N) : x ∈ trim s → x ∈ s.
Proof.
  unfold trim, trimEnd. rewrite elem_of_reverse. intros H.
  pose proof (elem_of_suffix _ _ _ H (trimStart_suffix _)) as H1.
  rewrite elem_of_reverse in H1.
  exact (elem_of_suffix _ _ _ H1 (trimStart_suffix _)).
Qed.

Lemma truthy_trim (s : list N) (x : N) :
  x ∈ s → isWhiteSpace x = false → truthy (trim s) = true.
Proof.
  intros Hin Hx. pose proof (trim_elem s x Hin Hx) as H.
  destruct (trim s); [by apply elem_of_nil in H|done].
Qed.

Lemma truthy_true (s : list N) : truthy s = true ↔ s ≠ [].
Proof. by destruct s. Qed.

(** ** The row tokenizer *)

Lemma rowLoop_quoted_text (text rest : list N) (values : list (list N))
    (current : list N) :
  noQuoteAhead rest →
  rowLoop (escape text ++ DQUOTE :: rest) values current true
  = rowLoop rest values (current ++ text) false.
Proof.
  intros Hrest. revert current.
  induction text as [|x text IH]; intros current.
  - rewrite app_nil_r. simpl. destruct rest as [|next rest']; [done|].
    simpl in Hrest. apply N.eqb_neq in Hrest. by rewrite Hrest.
  - simpl. destruct (x =? DQUOTE) eqn:Hx.
    + apply N.eqb_eq in Hx as ->. simpl. rewrite IH.
      by rewrite <- app_assoc.
    + simpl. rewrite Hx. rewrite andb_false_r, IH.
      by rewrite <- app_assoc.
Qed.

Lemma rowLoop_bare_text (text rest : list N) (values : list (list N))
    (current : list N) :
  DQUOTE ∉ text → COMMA ∉ text →
  rowLoop (text ++ rest) values current false
  = rowLoop rest values (current ++ text) false.
Proof.
  revert current. induction text as [|x text IH]; intros current Hq Hc.
  - by rewrite app_nil_r.
  - apply not_elem_of_cons in Hq as [Hxq Hq].
    apply not_elem_of_cons in Hc as [Hxc Hc].
    apply not_eq_sym, N.eqb_neq in Hxq. apply not_eq_sym, N.eqb_neq in Hxc.
    simpl. rewrite Hxq, Hxc. simpl. rewrite IH by done.
    by rewrite <- app_assoc.
Qed.


Lemma rowLoop_comma (rest : list N) (values : list (list N))
    (current : list N) :
  rowLoop (COMMA :: rest) values current false
  = rowLoop rest (values ++ [current]) [] false.
Proof. done. Qed.

Lemma rowLoop_cell (c : cell) (rest : list N) (values : list (list N))
    (current : list N) :
  wfCell c → noQuoteAhead rest →
  rowLoop (render c ++ rest) values current false
  = rowLoop rest values (current ++ content c) false.
Proof.
  destruct c as [text|text]; simpl.
  - intros [Hq Hc] _. by apply rowLoop_bare_text.
  - intros _ Hrest. rewrite <- app_assoc. simpl.
    rewrite <- (rowLoop_quoted_text text rest values current Hrest).
    by destruct (escape text ++ _).
Qed.


Lemma rowLoop_cells_end (c : cell) (cells : list cell)
    (values : list (list N)) (current : list N) :
  Forall wfCell (c :: cells) →
  rowLoop (joinCells (render <$> c :: cells)) values current false
  = values ++ [current ++ content c] ++ (content <$> cells).
Proof.
  revert c values current.
  induction cells as [|c' cells IH]; intros c values current Hwf.
  - apply Forall_cons in Hwf as [Hc _]. simpl.
    rewrite <- (app_nil_r (render c)).
    by rewrite rowLoop_cell by (done || by compute).
  - apply Forall_cons in Hwf as [Hc Hwf].
    change (joinCells (render <$> c :: c' :: cells))
      with (render c ++ COMMA :: joinCells (render <$> c' :: cells)).
    rewrite rowLoop_cell by (done || by compute).
    rewrite rowLoop_comma, IH by done.
    by rewrite <- app_assoc.
Qed.

(** A line written as well-formed cells tokenizes to their contents. *)
Lemma parseCSVRow_cells (cells : list cell) :
  cells ≠ [] → Forall wfCell cells →
  parseCSVRow (joinCells (render <$> cells)) = content <$> cells.
Proof.
  destruct cells as [|c cells]; [done|]. intros _ Hwf.
  unfold parseCSVRow. by rewrite rowLoop_cells_end.
Qed.


Lemma strong_list_ind (P : list N → Prop) :
  (∀ l, (∀ l', (length l' < length l)%nat → P l') → P l) → ∀ l, P l.
Proof.
  intros H l. remember (length l) as n eqn:Hn. revert l Hn.
  induction n as [n IH] using lt_wf_ind. intros l ->.
  apply H. intros l' Hl'. by apply (IH (length l')).
Qed.


(** ** The object of one data line *)

Section BuildRow.
Variables headers values : list (list N).

Lemma rowUpTo_S (n : nat) :
  rowUpTo headers values (S n)
  = fieldStep headers values (rowUpTo headers values n) n.
Proof. unfold rowUpTo. by rewrite seq_S, foldl_snoc. Qed.

Lemma lastFilled_skip (n j : nat) (k : list N) :
  (headerAt headers n = Some k → valueAt values n = []) →
  lastFilled headers values (S n) k j ↔ lastFilled headers values n k j.
Proof.
  intros Hn. unfold lastFilled. split.
  - intros (Hj & Hk & Hv & Hlast).
    assert (j ≠ n) by (intros ->; auto).
    repeat split; try done; try lia. intros j' Hj'. apply Hlast. lia.
  - intros (Hj & Hk & Hv & Hlast). repeat split; try done; try lia.
    intros j' Hj' Hk'. destruct (decide (j' = n)) as [->|]; [auto|].
    apply Hlast; [lia|done].
Qed.

Lemma lastFilled_hit (n j : nat) (k : list N) :
  headerAt headers n = Some k → valueAt values n ≠ [] →
  lastFilled headers values (S n) k j ↔ j = n.
Proof.
  intros Hk Hv. unfold lastFilled. split.
  - intros (Hj & _ & _ & Hlast).
    destruct (decide (j = n)) as [|Hne]; [done|].
    exfalso. apply Hv, Hlast; [lia|done].
  - intros ->. repeat split; try done; try lia; intros; lia.
Qed.

Lemma rowUpTo_lookup (n : nat) (k v : list N) :
  (rowUpTo headers values n).1 !! k = Some v ↔
  k ≠ PROTO ∧ k ≠ [] ∧
  ∃ j, lastFilled headers values n k j ∧ valueAt values j = v.
Proof.
  induction n as [|n IH].
  - unfold rowUpTo. simpl. rewrite lookup_empty.
    split; [done|]. intros (_ & _ & j & (Hj & _) & _). lia.
  - rewrite rowUpTo_S. unfold fieldStep.
    destruct (decide (headerAt headers n = Some k
                      ∧ k ≠ PROTO ∧ k ≠ [] ∧ valueAt values n ≠ []))
      as [(Hk & Hproto & Hkne & Hv)|Hmiss].
    + rewrite Hk. simpl.
      apply truthy_true in Hkne as Hkt. apply truthy_true in Hv as Hvt.
      rewrite Hkt, Hvt. simpl. unfold obj_set.
      rewrite decide_False by done. rewrite lookup_insert_eq.
      split.
      * intros [= <-]. repeat split; try done. exists n.
        split; [by apply lastFilled_hit|done].
      * intros (_ & _ & j & Hj%lastFilled_hit & <-); [by subst|done..].
    + assert ((fieldStep headers values (rowUpTo headers values n) n).1 !! k
              = (rowUpTo headers values n).1 !! k) as Hsame.
      { unfold fieldStep.
        destruct (headerAt headers n) as [h|] eqn:Hh; simpl; [|done].
        destruct (truthy h) eqn:Hth; simpl; [|done].
        destruct (truthy (valueAt values n)) eqn:Htv; simpl; [|done].
        apply truthy_true in Hth, Htv. unfold obj_set.
        destruct (decide (h = PROTO)) as [->|Hproto]; [done|].
        apply lookup_insert_ne. intros ->. by apply Hmiss. }
      unfold fieldStep in Hsame. rewrite Hsame, IH.
      split; intros (Hproto & Hkne & j & Hj & Hv);
        (assert (headerAt headers n = Some k → valueAt values n = [])
           as Hskip
           by (intros Hk; destruct (valueAt values n) eqn:E; [done|];
               exfalso; by apply Hmiss));
        repeat split; try done; exists j; (split; [|done]);
        by apply (lastFilled_skip n j k Hskip).
Qed.

Lemma rowUpTo_flag (n : nat) :
  (rowUpTo headers values n).2 = true ↔
  ∃ j h, (j < n)%nat ∧ headerAt headers j = Some h ∧ h ≠ []
         ∧ valueAt values j ≠ [].
Proof.
  induction n as [|n IH].
  - split; [done|]. intros (j & _ & Hj & _). lia.
  - rewrite rowUpTo_S. unfold fieldStep.
    destruct (headerAt headers n) as [h|] eqn:Hh; simpl.
    2:{ rewrite IH. split; intros (j & h & Hj & Hk & ?).
        - exists j, h. split; [lia|done].
        - exists j, h. split; [|done].
          destruct (decide (j = n)) as [->|]; [congruence|lia]. }
    destruct (truthy h && truthy (valueAt values n)) eqn:Hc; simpl.
    + apply andb_prop in Hc as [Hth%truthy_true Htv%truthy_true].
      split; [|done]. intros _. exists n, h. split; [lia|done].
    + rewrite IH. split; intros (j & h' & Hj & Hk & Hne & Hv).
      * exists j, h'. split; [lia|done].
      * exists j, h'. split; [|done].
        destruct (decide (j = n)) as [->|]; [|lia].
        assert (h' = h) as -> by congruence.
        apply truthy_true in Hne, Hv. by rewrite Hne, Hv in Hc.
Qed.

Lemma rowUpTo_nonempty (n : nat) :
  (∀ j, headerAt headers j ≠ Some PROTO) →
  (rowUpTo headers values n).2 = true → (rowUpTo headers values n).1 ≠ ∅.
Proof.
  intros Hproto. induction n as [|n IH]; [done|].
  rewrite rowUpTo_S. unfold fieldStep.
  destruct (headerAt headers n) as [h|] eqn:Hh; simpl; [|done].
  destruct (truthy h && truthy (valueAt values n)); [|done].
  intros _. simpl. unfold obj_set. rewrite decide_False.
  - apply insert_non_empty.
  - intros ->. by apply (Hproto n).
Qed.

Lemma lastFilled_length (k : list N) (j : nat) :
  lastFilled headers values (length headers) k j ↔
  headerAt headers j = Some k ∧ valueAt values j ≠ [] ∧
  ∀ j', (j < j')%nat → headerAt headers j' = Some k →
        valueAt values j' = [].
Proof.
  unfold lastFilled, headerAt. split.
  - intros (Hj & Hk & Hv & Hlast). repeat split; try done.
    intros j' Hj' Hk'. apply Hlast; [|done]. split; [done|].
    apply lookup_lt_is_Some. by destruct (headers !! j').
  - intros (Hk & Hv & Hlast). repeat split; try done.
    + apply lookup_lt_is_Some. by destruct (headers !! j).
    + intros j' [Hj' _]. by apply Hlast.
Qed.

(** The value a row holds under a name is the cell of the last column
    with that name and a non-empty cell. *)
Lemma buildRow_lookup (k v : list N) :
  (buildRow headers values).1 !! k = Some v ↔
  k ≠ PROTO ∧ k ≠ [] ∧
  ∃ j, headerAt headers j = Some k ∧ valueAt values j = v ∧ v ≠ [] ∧
       ∀ j', (j < j')%nat → headerAt headers j' = Some k →
             valueAt values j' = [].
Proof.
  unfold buildRow.
  rewrite rowUpTo_lookup. split.
  - intros (? & ? & j & (? & ? & ?)%lastFilled_length & <-). naive_solver.
  - intros (? & ? & j & ? & <- & ? & ?). repeat split; try done.
    exists j. split; [|done]. by apply lastFilled_length.
Qed.

(** A row that passes the [rowHasData] test holds a field, unless a
    header is the name ["__proto__"]. *)
Lemma buildRow_nonempty :
  (∀ j, headerAt headers j ≠ Some PROTO) →
  (buildRow headers values).2 = true → (buildRow headers values).1 ≠ ∅.
Proof. apply rowUpTo_nonempty. Qed.

Lemma buildRow_flag :
  (buildRow headers values).2 = true ↔
  ∃ j h, headerAt headers j = Some h ∧ h ≠ [] ∧ valueAt values j ≠ [].
Proof.
  unfold buildRow.
  rewrite rowUpTo_flag. split.
  - intros (j & h & _ & ?). by exists j, h.
  - intros (j & h & Hk & ?). exists j, h. split; [|done].
    apply lookup_lt_is_Some. unfold headerAt in Hk.
    by destruct (headers !! j).
Qed.
End BuildRow.

(** ** The line splitter *)

Lemma lineLoop_LF (rest : list N) (lines : list (list N))
    (currentLine : list N) :
  lineLoop (LF :: rest) lines currentLine false
  = lineLoop rest (pushLine lines currentLine) [] false.
Proof. done. Qed.

Lemma lineLoop_open_quote (rest : list N) (lines : list (list N))
    (currentLine : list N) :
  lineLoop (DQUOTE :: rest) lines currentLine false
  = lineLoop rest lines (currentLine ++ [DQUOTE]) true.
Proof. by destruct rest. Qed.

Lemma lineLoop_close_quote (rest : list N) (lines : list (list N))
    (currentLine : list N) :
  noQuoteAhead rest →
  lineLoop (DQUOTE :: rest) lines currentLine true
  = lineLoop rest lines (currentLine ++ [DQUOTE]) false.
Proof.
  destruct rest as [|next rest']; [done|]. simpl.
  intros Hnext%N.eqb_neq. by rewrite Hnext.
Qed.

Lemma lineLoop_inside_quotes (text rest : list N) (lines : list (list N))
    (currentLine : list N) :
  DQUOTE ∉ text →
  lineLoop (text ++ rest) lines currentLine true
  = lineLoop rest lines (currentLine ++ text) true.
Proof.
  revert currentLine. induction text as [|x text IH]; intros cur Hq.
  - by rewrite app_nil_r.
  - apply not_elem_of_cons in Hq as [Hxq Hq].
    apply not_eq_sym, N.eqb_neq in Hxq.
    simpl. rewrite Hxq, !andb_false_r, IH by done.
    by rewrite <- app_assoc.
Qed.

Lemma lineLoop_bare_text (text rest : list N) (lines : list (list N))
    (currentLine : list N) :
  DQUOTE ∉ text → LF ∉ text → CR ∉ text →
  lineLoop (text ++ rest) lines currentLine false
  = lineLoop rest lines (currentLine ++ text) false.
Proof.
  revert currentLine. induction text as [|x text IH]; intros cur Hq Hl Hr.
  - by rewrite app_nil_r.
  - apply not_elem_of_cons in Hq as [Hxq Hq].
    apply not_elem_of_cons in Hl as [Hxl Hl].
    apply not_elem_of_cons in Hr as [Hxr Hr].
    apply not_eq_sym, N.eqb_neq in Hxq, Hxl, Hxr.
    simpl. rewrite Hxq, Hxl, Hxr. simpl. rewrite IH by done.
    by rewrite <- app_assoc.
Qed.

Lemma escape_id (text : list N) : DQUOTE ∉ text → escape text = text.
Proof.
  induction text as [|x text IH]; [done|].
  intros [Hx Hq]%not_elem_of_cons. apply not_eq_sym, N.eqb_neq in Hx.
  simpl. rewrite Hx. by rewrite IH.
Qed.

Lemma lineCell_wfCell (c : cell) : lineCell c → wfCell c.
Proof. destruct c; simpl; [by intros (? & ? & _)|done]. Qed.

Lemma lineLoop_cell (c : cell) (rest : list N) (lines : list (list N))
    (currentLine : list N) :
  lineCell c → noQuoteAhead rest →
  lineLoop (render c ++ rest) lines currentLine false
  = lineLoop rest lines (currentLine ++ render c) false.
Proof.
  destruct c as [text|text]; unfold lineCell, render.
  - intros (Hq & _ & Hl & Hr) _. by apply lineLoop_bare_text.
  - intros Hq Hrest. rewrite escape_id by done.
    rewrite <- app_comm_cons, <- app_assoc, lineLoop_open_quote.
    rewrite lineLoop_inside_quotes by done.
    change ([DQUOTE] ++ rest) with (DQUOTE :: rest).
    rewrite lineLoop_close_quote by done.
    f_equal. rewrite <- !app_assoc. done.
Qed.

Lemma lineLoop_cells (cells : list cell) (rest : list N)
    (lines : list (list N)) (currentLine : list N) :
  Forall lineCell cells → noQuoteAhead rest →
  lineLoop (joinCells (render <$> cells) ++ rest) lines currentLine false
  = lineLoop rest lines (currentLine ++ joinCells (render <$> cells)) false.
Proof.
  intros Hcells Hrest. revert currentLine.
  induction Hcells as [|c cells Hc Hcells IH]; intros cur.
  - simpl. by rewrite app_nil_r.
  - destruct cells as [|c' cells].
    + simpl. by apply lineLoop_cell.
    + change (joinCells (render <$> c :: c' :: cells))
        with (render c ++ COMMA :: joinCells (render <$> c' :: cells)).
      rewrite <- app_assoc, lineLoop_cell by (done || by compute).
      rewrite <- app_comm_cons.
      change (lineLoop (COMMA :: ?r) lines ?k false)
        with (lineLoop r lines (k ++ [COMMA]) false).
      rewrite IH. f_equal. rewrite <- !app_assoc. done.
Qed.

(** Lines written as cells are cut where they were joined, and the blank
    ones are dropped. *)
Lemma lineLoop_lines (ls : list (list cell)) (lines : list (list N)) :
  Forall (Forall lineCell) ls →
  lineLoop (joinLines (renderLine <$> ls)) lines [] false
  = lines ++ List.filter (λ line, truthy (trim line)) (renderLine <$> ls).
Proof.
  intros Hls. revert lines.
  induction Hls as [|l ls Hl Hls IH]; intros lines.
  - simpl. by rewrite app_nil_r.
  - assert (∀ acc, pushLine acc (renderLine l)
                   = acc ++ List.filter (λ line, truthy (trim line))
                                        [renderLine l]) as Hpush.
    { intros acc. unfold pushLine. simpl.
      destruct (truthy (trim (renderLine l))); [done|by rewrite app_nil_r]. }
    destruct ls as [|l' ls].
    + simpl. rewrite <- (app_nil_r (renderLine l)) at 1.
      unfold renderLine at 1. rewrite lineLoop_cells by done.
      simpl. apply Hpush.
    + change (joinLines (renderLine <$> l :: l' :: ls))
        with (renderLine l ++ LF :: joinLines (renderLine <$> l' :: ls)).
      unfold renderLine at 1. rewrite lineLoop_cells by (done || by compute).
      rewrite lineLoop_LF, IH.
      change ([] ++ joinCells (render <$> l)) with (renderLine l).
      rewrite Hpush, <- app_assoc. f_equal.
      rewrite (fmap_cons renderLine l).
      change (renderLine l :: (renderLine <$> l' :: ls))
        with ([renderLine l] ++ (renderLine <$> l' :: ls)).
      by rewrite List.filter_app.
Qed.

Lemma elem_of_joinCells (x : N) (c : list N) (cells : list (list N)) :
  c ∈ cells → x ∈ c → x ∈ joinCells cells.
Proof.
  induction cells as [|c' cells IH]; [by intros ?%elem_of_nil|].
  intros Hc Hx. destruct cells as [|c'' cells].
  - apply list_elem_of_singleton in Hc as ->. done.
  - change (joinCells (c' :: c'' :: cells))
      with (c' ++ COMMA :: joinCells (c'' :: cells)).
    apply elem_of_app. apply elem_of_cons in Hc as [->|Hc]; [by left|].
    right. apply elem_of_cons. right. by apply IH.
Qed.

Lemma trim_nonempty_elem (s : list N) :
  trim s ≠ [] → ∃ z, z ∈ s ∧ isWhiteSpace z = false.
Proof.
  intros Hne. destruct (forallb isWhiteSpace s) eqn:Hall.
  - by apply trim_blank in Hall.
  - clear Hne. induction s as [|c s IH]; [done|]. simpl in Hall.
    destruct (isWhiteSpace c) eqn:Hc.
    + destruct (IH Hall) as (z & Hz & Hw). exists z.
      split; [by apply elem_of_cons; right|done].
    + exists c. split; [by apply elem_of_cons; left|done].
Qed.

Lemma content_render (c : cell) (z : N) :
  lineCell c → z ∈ content c → z ∈ render c.
Proof.
  destruct c as [text|text]; simpl; [done|]. intros Hq Hz.
  rewrite escape_id by done. apply elem_of_cons. right.
  apply elem_of_app. by left.
Qed.

Lemma foldl_rowStep (headers : list (list N)) (lines : list (list N))
    (results : list (gmap (list N) (list N))) :
  foldl (rowStep headers) results lines
  = results ++ flat_map (rowsOfLine headers) lines.
Proof.
  revert results. induction lines as [|line lines IH]; intros results.
  - simpl. by rewrite app_nil_r.
  - simpl. rewrite IH. unfold rowsOfLine at 2. unfold rowStep.
    destruct (buildRow headers (parseCSVRow line)) as [obj []]; simpl.
    + by rewrite <- app_assoc.
    + done.
Qed.

(** The table of a text written as a header line that is not blank and
    data lines, all of cells: the rows of the data lines that are not
    blank, in order. *)
Lemma parseCSV_lines (hs : list cell) (ds : list (list cell)) :
  Forall lineCell hs → Forall (Forall lineCell) ds →
  truthy (trim (renderLine hs)) = true →
  parseCSV (joinLines (renderLine <$> hs :: ds))
  = flat_map (rowsOfLine (content <$> hs))
             (List.filter (λ line, truthy (trim line)) (renderLine <$> ds)).
Proof.
  intros Hhs Hds Hnb. unfold parseCSV, splitLines.
  rewrite lineLoop_lines by by apply Forall_cons.
  rewrite fmap_cons. simpl. rewrite Hnb.
  destruct (List.filter _ (renderLine <$> ds)) as [|line lines]; [done|].
  simpl length. simpl drop. simpl lookup. simpl default.
  rewrite foldl_rowStep.
  unfold renderLine. rewrite parseCSVRow_cells; [done| |].
  - intros ->. done.
  - eauto using Forall_impl, lineCell_wfCell.
Qed.

(** ** Where the rows of a table come from *)

Lemma foldl_rowStep_elem (headers : list (list N)) (lines : list (list N))
    (results : list (gmap (list N) (list N))) (row : gmap (list N) (list N)) :
  row ∈ foldl (rowStep headers) results lines →
  row ∈ results ∨
  ∃ line, line ∈ lines
          ∧ buildRow headers (parseCSVRow line) = (row, true).
Proof.
  revert results. induction lines as [|line lines IH]; intros results.
  - simpl. by left.
  - simpl. intros [Hrow|(line' & Hin & Hb)]%IH.
    + unfold rowStep in Hrow.
      destruct (buildRow headers (parseCSVRow line)) as [obj []] eqn:Hb.
      * apply elem_of_app in Hrow as [Hrow|Hrow]; [by left|].
        apply list_elem_of_singleton in Hrow as ->. right.
        exists line. split; [apply elem_of_cons; by left|done].
      * by left.
    + right. exists line'. split; [apply elem_of_cons; by right|done].
Qed.

Lemma parseCSV_rows (csvText : list N) (row : gmap (list N) (list N)) :
  row ∈ parseCSV csvText →
  ∃ header lines line,
    splitLines csvText = header :: lines ∧ line ∈ lines
    ∧ buildRow (parseCSVRow header) (parseCSVRow line) = (row, true).
Proof.
  unfold parseCSV. destruct (splitLines csvText) as [|header lines].
  - by intros ?%elem_of_nil.
  - destruct (length (header :: lines) <? 2)%nat;
      [by intros ?%elem_of_nil|].
    simpl. rewrite drop_0.
    intros [?%elem_of_nil|(line & Hin & Hb)]%foldl_rowStep_elem; [done|].
    by exists header, lines, line.
Qed.

(** Every character of a field was a character of the line. *)
Lemma rowLoop_chars (P : N → Prop) (row : list N) (values : list (list N))
    (current : list N) (inQuotes : bool) :
  Forall P row → Forall P current → Forall (Forall P) values →
  Forall (Forall P) (rowLoop row values current inQuotes).
Proof.
  revert values current inQuotes.
  induction row as [row IH] using strong_list_ind.
  intros values current inQuotes Hrow Hcur Hvalues.
  destruct row as [|char rest].
  - simpl. apply Forall_app. split; [done|]. by apply Forall_singleton.
  - apply Forall_cons in Hrow as [Hchar Hrest]. simpl.
    destruct (char =? DQUOTE) eqn:Hq.
    + apply N.eqb_eq in Hq as ->. destruct rest as [|next rest'].
      * simpl. apply Forall_app. split; [done|]. by apply Forall_singleton.
      * destruct (inQuotes && (next =? DQUOTE)).
        -- apply Forall_cons in Hrest as [_ Hrest']. apply IH; try done.
           ++ simpl; lia.
           ++ apply Forall_app. split; [done|]. by apply Forall_singleton.
        -- apply IH; try done. simpl; lia.
    + destruct ((char =? COMMA) && negb inQuotes).
      * apply IH; try done; [simpl; lia|].
        apply Forall_app. split; [done|]. by apply Forall_singleton.
      * apply IH; try done; [simpl; lia|].
        apply Forall_app. split; [done|]. by apply Forall_singleton.
Qed.

Lemma pushLine_Forall (P : list N → Prop) (lines : list (list N))
    (line : list N) :
  Forall P lines → P line → Forall P (pushLine lines line).
Proof.
  intros Hlines Hline. unfold pushLine. destruct (truthy (trim line)); [|done].
  apply Forall_app. split; [done|]. by apply Forall_singleton.
Qed.

(** With no carriage return inside quotes, none reaches a line. *)
Lemma lineLoop_no_CR (csvText : list N) (lines : list (list N))
    (currentLine : list N) (inQuotes : bool) :
  crInQuotes csvText inQuotes = false →
  CR ∉ currentLine → Forall (λ line, CR ∉ line) lines →
  Forall (λ line, CR ∉ line) (lineLoop csvText lines currentLine inQuotes).
Proof.
  revert lines currentLine inQuotes.
  induction csvText as [csvText IH] using strong_list_ind.
  intros lines cur inQuotes Hcr Hcur Hlines.
  assert (∀ x, x ≠ CR → CR ∉ cur ++ [x]) as Hsnoc.
  { intros x Hx [?|?%list_elem_of_singleton]%elem_of_app; done. }
  destruct csvText as [|char rest].
  - simpl. by apply pushLine_Forall.
  - simpl in *. destruct (char =? DQUOTE) eqn:Hq.
    + apply N.eqb_eq in Hq as ->. destruct rest as [|next rest'].
      * simpl. apply pushLine_Forall; [done|]. by apply Hsnoc.
      * destruct (inQuotes && (next =? DQUOTE)).
        -- apply IH; try done; [simpl; lia|]. by apply Hsnoc.
        -- apply IH; try done; [simpl; lia|]. by apply Hsnoc.
    + destruct ((char =? LF) && negb inQuotes) eqn:Hlf.
      * apply andb_prop in Hlf as [Hlf Hin]. apply N.eqb_eq in Hlf as ->.
        simpl in Hcr. apply IH; try done; [simpl; lia| |].
        -- by intros ?%elem_of_nil.
        -- by apply pushLine_Forall.
      * destruct (char =? CR) eqn:Hc.
        -- apply N.eqb_eq in Hc as ->. destruct inQuotes; [done|].
           simpl in *. apply IH; try done. simpl; lia.
        -- simpl in *. apply N.eqb_neq in Hc.
           apply IH; try done; [simpl; lia|]. by apply Hsnoc.
Qed.

(** ** Texts with fewer than two lines *)

Lemma whitespace_not_quote (c : N) :
  isWhiteSpace c = true → (c =? DQUOTE) = false.
Proof. destruct (N.eqb_spec c DQUOTE) as [->|]; [done|done]. Qed.

Lemma whitespace_no_quote (w : list N) :
  forallb isWhiteSpace w = true → DQUOTE ∉ w.
Proof.
  induction w as [|c w IH]; [intros _ ?%elem_of_nil; done|]. simpl.
  intros [Hc Hw]%andb_prop. apply not_elem_of_cons. split; [|auto].
  intros <-. done.
Qed.

Lemma pushLine_blank (lines : list (list N)) (line : list N) :
  forallb isWhiteSpace line = true → pushLine lines line = lines.
Proof. intros H. unfold pushLine. by rewrite trim_blank. Qed.

Lemma pushLine_length (lines : list (list N)) (line : list N) :
  (length (pushLine lines line) ≤ S (length lines))%nat.
Proof.
  unfold pushLine. destruct (truthy (trim line)); [|lia].
  rewrite length_app. simpl. lia.
Qed.

(** Blank text after a blank start of line adds no line. *)
Lemma lineLoop_blank (w : list N) (lines : list (list N))
    (currentLine : list N) :
  forallb isWhiteSpace w = true → forallb isWhiteSpace currentLine = true →
  lineLoop w lines currentLine false = lines.
Proof.
  revert lines currentLine. induction w as [|c w IH]; intros lines cur.
  - intros _ Hcur. simpl. by apply pushLine_blank.
  - simpl. intros [Hc Hw]%andb_prop Hcur.
    rewrite (whitespace_not_quote c Hc).
    destruct (c =? LF); simpl.
    + rewrite pushLine_blank by done. by apply IH.
    + destruct (c =? CR); simpl; [by apply IH|].
      apply IH; [done|]. rewrite forallb_app. simpl. by rewrite Hcur, Hc.
Qed.

Lemma lineLoop_blank_length (w : list N) (lines : list (list N))
    (currentLine : list N) (inQuotes : bool) :
  forallb isWhiteSpace w = true →
  (length (lineLoop w lines currentLine inQuotes) ≤ S (length lines))%nat.
Proof.
  intros Hw. destruct inQuotes.
  - rewrite <- (app_nil_r w).
    rewrite lineLoop_inside_quotes by by apply whitespace_no_quote.
    apply pushLine_length.
  - revert currentLine. induction w as [|c w IH]; intros cur.
    + apply pushLine_length.
    + simpl in *. apply andb_prop in Hw as [Hc Hw].
      rewrite (whitespace_not_quote c Hc).
      destruct (c =? LF); simpl.
      * rewrite lineLoop_blank by done. apply pushLine_length.
      * destruct (c =? CR); simpl; by apply IH.
Qed.

(** A text with no line feed leaves the list of lines as it was. *)
Lemma lineLoop_no_LF (h rest : list N) (lines : list (list N))
    (currentLine : list N) (inQuotes : bool) :
  LF ∉ h → noQuoteAhead rest →
  ∃ currentLine' inQuotes',
    lineLoop (h ++ rest) lines currentLine inQuotes
    = lineLoop rest lines currentLine' inQuotes'.
Proof.
  intros Hlf Hrest. revert currentLine inQuotes Hlf.
  induction h as [h IH] using strong_list_ind. intros cur inQuotes Hlf.
  destruct h as [|char h'].
  - by exists cur, inQuotes.
  - apply not_elem_of_cons in Hlf as [Hchar Hlf]. simpl.
    destruct (char =? DQUOTE) eqn:Hq.
    + destruct h' as [|next h'']; simpl.
      * destruct rest as [|next rest']; [by eexists _, _|].
        simpl in Hrest. apply N.eqb_neq in Hrest.
        rewrite Hrest, andb_false_r. by eexists _, _.
      * destruct (inQuotes && (next =? DQUOTE)).
        -- apply not_elem_of_cons in Hlf as [_ Hlf].
           apply IH; [simpl; lia|done].
        -- apply (IH (next :: h'')); [simpl; lia|done].
    + apply not_eq_sym, N.eqb_neq in Hchar. rewrite Hchar. simpl.
      destruct ((char =? CR) && negb inQuotes); apply IH; simpl; done || lia.
Qed.

(** ** The snapshot *)

Lemma sheetStep_obj_set (net : SheetConfig -> FetchOutcome)
    (sheetsData : gmap (list N) (list (gmap (list N) (list N))))
    (config : SheetConfig) :
  sheetStep net sheetsData config
  = obj_set sheetsData (key config) (sheetRows net config).
Proof.
  unfold sheetStep, sheetRows. by destruct (fetchSheetData net config).
Qed.

Lemma foldl_sheetStep_other (net : SheetConfig -> FetchOutcome)
    (configs : list SheetConfig) (k : list N)
    (sheetsData : gmap (list N) (list (gmap (list N) (list N)))) :
  k ∉ key <$> configs →
  foldl (sheetStep net) sheetsData configs !! k = sheetsData !! k.
Proof.
  revert sheetsData. induction configs as [|c configs IH]; [done|].
  intros sheetsData [Hc Hk]%not_elem_of_cons. simpl.
  rewrite IH by done. rewrite sheetStep_obj_set. unfold obj_set.
  destruct (decide (key c = PROTO)); [done|]. by apply lookup_insert_ne.
Qed.

Lemma collectSheets_lookup (net : SheetConfig -> FetchOutcome)
    (configs : list SheetConfig) (config : SheetConfig) :
  NoDup (key <$> configs) → PROTO ∉ key <$> configs →
  config ∈ configs →
  collectSheets net configs !! key config = Some (sheetRows net config).
Proof.
  unfold collectSheets.
  generalize (∅ : gmap (list N) (list (gmap (list N) (list N)))).
  induction configs as [|c configs IH]; intros sheetsData Hnodup Hproto Hin.
  - by apply elem_of_nil in Hin.
  - rewrite fmap_cons in Hnodup, Hproto.
    apply NoDup_cons in Hnodup as [Hc Hnodup].
    apply not_elem_of_cons in Hproto as [Hcp Hproto]. simpl.
    apply elem_of_cons in Hin as [->|Hin].
    + rewrite foldl_sheetStep_other by done.
      rewrite sheetStep_obj_set. unfold obj_set.
      rewrite decide_False by done. apply lookup_insert_eq.
    + by apply IH.
Qed.

Lemma SHEET_CONFIGS_keys :
  NoDup (key <$> SHEET_CONFIGS) ∧ PROTO ∉ key <$> SHEET_CONFIGS.
Proof. split; compute_done. Qed.

(** * The specification's claims *)

(** C1: a data cell written as a quoted region holding [a], a doubled
    quote and [b] should be stored as [a], one quote, [b].  The tokenizer
    alone reads it so, but [parseCSV] first folds the doubled quote into
    one while cutting lines, and the tokenizer then takes that quote for
    the end of the quoted region: the stored value is [ab]. *)
Theorem parseCSV_doubled_quote_lost :
  let cellText := render (Quoted (str "a" ++ DQUOTE :: str "b")) in
  parseCSVRow cellText = [str "a" ++ DQUOTE :: str "b"]
  ∧ splitLines (str "h" ++ LF :: cellText)
    = [str "h"; DQUOTE :: str "a" ++ DQUOTE :: str "b" ++ [DQUOTE]]
  ∧ parseCSV (str "h" ++ LF :: cellText) = [ {[ str "h" := str "ab" ]} ].
Proof. by vm_compute. Qed.

(** C2, as stated, fails: a carriage return inside a quoted region is kept
    and reaches the stored value. *)
Lemma quoted_CR_is_kept :
  ¬ valuesFreeOfCR
      (str "h" ++ LF :: DQUOTE :: str "a" ++ CR :: str "b" ++ [DQUOTE]).
Proof.
  intros H.
  apply (H {[ str "h" := str "a" ++ CR :: str "b" ]} (str "h")
           (str "a" ++ CR :: str "b")).
  - vm_compute. apply list_elem_of_singleton. reflexivity.
  - apply lookup_singleton_eq.
  - vm_compute. apply elem_of_cons. right. apply elem_of_cons. by left.
Qed.

(** C2, amended: carriage returns are dropped outside quoted regions only.
    In quoted mode the first loop appends one to the line like any other
    character; when no carriage return of the text is met in quoted mode,
    no value of the table holds one. *)
Theorem unquoted_CR_is_dropped (csvText : list N) :
  crInQuotes csvText false = false → valuesFreeOfCR csvText.
Proof.
  intros Hcr row k v Hrow Hkv.
  apply parseCSV_rows in Hrow
    as (header & lines & line & Hsplit & Hline & Hb).
  assert (line ∈ splitLines csvText) as Hline'
      by (rewrite Hsplit; apply elem_of_cons; by right).
  clear Hline. rename Hline' into Hline.
  apply (f_equal fst) in Hb. simpl in Hb. rewrite <- Hb in Hkv.
  apply buildRow_lookup in Hkv as (_ & _ & j & _ & Hv & Hne & _).
  unfold valueAt in Hv.
  destruct (parseCSVRow line !! j) as [field|] eqn:Hfield;
    simpl in Hv; [|congruence].
  subst v. intros Hin%trim_subseteq.
  assert (Forall (λ l, CR ∉ l) (splitLines csvText)) as Hlines.
  { apply lineLoop_no_CR; [done| |done]. by intros ?%elem_of_nil. }
  rewrite Forall_forall in Hlines. specialize (Hlines line Hline).
  assert (Forall (Forall (λ x, x ≠ CR)) (parseCSVRow line)) as Hfields.
  { apply rowLoop_chars; try done.
    apply Forall_forall. intros x Hx ->. done. }
  rewrite Forall_forall in Hfields.
  specialize (Hfields field (list_elem_of_lookup_2 _ _ _ Hfield)).
  rewrite Forall_forall in Hfields. by apply (Hfields CR).
Qed.

Lemma unquoted_CR_is_dropped_witness :
  valuesFreeOfCR (str "h" ++ CR :: LF :: str "v" ++ [CR; LF]).
Proof. apply unquoted_CR_is_dropped. vm_compute. reflexivity. Defined.

(** C3: a quoted cell whose content spans a line feed should be stored
    as that one value, whatever the text around it.  The first loop does
    keep the line feed on its logical line, so no extra row appears, and
    the tokenizer alone reads the written data line rightly.  But when an
    earlier cell of the line holds a doubled quote, [parseCSV] hands the
    tokenizer a line where that pair is folded into one quote (the defect
    of C1): the quoted regions shift, the comma between the two cells is
    taken for content, and both cells end up in one field under the
    first header; nothing is stored under the header of the cell. *)
Theorem quoted_newline_after_doubled_quote :
  let first := Quoted (str "5" ++ DQUOTE :: str " disk") in
  let second := Quoted (str "line1" ++ LF :: str "line2") in
  let csvText := str "id,note" ++ LF :: renderLine [first; second] in
  parseCSVRow (renderLine [first; second])
  = [str "5" ++ DQUOTE :: str " disk"; str "line1" ++ LF :: str "line2"]
  ∧ length (splitLines csvText) = 2%nat
  ∧ parseCSV csvText
    = [ {[ str "id" := str "5 disk,line1" ++ LF :: str "line2" ]} ]
  ∧ parseCSV (str "id,note" ++ LF ::
              renderLine [Quoted (str "5 disk"); second])
    = [ {[ str "id" := str "5 disk";
           str "note" := str "line1" ++ LF :: str "line2" ]} ].
Proof. by vm_compute. Qed.

(** X19: a quoted cell whose content spans a line feed stays one cell of
    one row.  In a text written as a header line and data lines of cells,
    take a data line that holds the quoted cell [x LF y] in the column of
    a header whose trimmed name [k] names no later column.  The table is
    then the table of the lines before it, one row for this line, and the
    table of the lines after it, and that row stores the trimmed
    [x LF y] under [k]. *)
Theorem quoted_newline_is_content (hs : list cell)
    (linesBefore linesAfter : list (list cell)) (before after : list cell)
    (hc : cell) (x y : list N) :
  Forall lineCell hs →
  Forall (Forall lineCell) linesBefore → Forall (Forall lineCell) linesAfter →
  Forall lineCell before → Forall lineCell after →
  DQUOTE ∉ x → DQUOTE ∉ y →
  hs !! length before = Some hc →
  trim (content hc) ≠ [] → trim (content hc) ≠ PROTO →
  trim (x ++ LF :: y) ≠ [] →
  (∀ j hc', (length before < j)%nat → hs !! j = Some hc' →
            trim (content hc') ≠ trim (content hc)) →
  let dataLine := before ++ Quoted (x ++ LF :: y) :: after in
  let text := λ ds, joinLines (renderLine <$> hs :: ds) in
  ∃ row,
    parseCSV (text (linesBefore ++ dataLine :: linesAfter))
    = parseCSV (text linesBefore) ++ row :: parseCSV (text linesAfter)
    ∧ row !! trim (content hc) = Some (trim (x ++ LF :: y)).
Proof.
  intros Hhs HlinesB HlinesA Hbefore Hafter Hx Hy Hhc Hk Hproto Hv Hlater
         dataLine text.
  assert (Forall lineCell dataLine) as Hdata.
  { apply Forall_app. split; [done|]. apply Forall_cons. split; [|done].
    simpl. intros [?|[?|?]%elem_of_cons]%elem_of_app; done. }
  assert (truthy (trim (renderLine hs)) = true) as Hheaderline.
  { destruct (trim_nonempty_elem _ Hk) as (z & Hz & Hw).
    apply (truthy_trim _ z); [|done].
    apply (elem_of_joinCells z (render hc)).
    - apply list_elem_of_fmap. exists hc.
      split; [done|]. by apply list_elem_of_lookup_2 in Hhc.
    - apply content_render; [|done].
      rewrite Forall_forall in Hhs. apply Hhs.
      by apply list_elem_of_lookup_2 in Hhc. }
  assert (truthy (trim (renderLine dataLine)) = true) as Hdataline.
  { apply (truthy_trim _ DQUOTE); [|done].
    apply (elem_of_joinCells DQUOTE (render (Quoted (x ++ LF :: y)))).
    - apply list_elem_of_fmap. eexists. split; [done|].
      unfold dataLine. apply elem_of_app. right. apply elem_of_cons. by left.
    - simpl. apply elem_of_cons. by left. }
  assert (headerAt (content <$> hs) (length before)
          = Some (trim (content hc))) as Hheader.
  { unfold headerAt. by rewrite list_lookup_fmap, Hhc. }
  assert (valueAt (content <$> dataLine) (length before)
          = trim (x ++ LF :: y)) as Hvalue.
  { unfold valueAt, dataLine. rewrite list_lookup_fmap.
    by rewrite list_lookup_middle. }
  assert (rowsOfLine (content <$> hs) (renderLine dataLine)
          = [(buildRow (content <$> hs) (content <$> dataLine)).1]) as Hrow.
  { unfold rowsOfLine, rowStep, renderLine. rewrite parseCSVRow_cells.
    - destruct (buildRow _ _) as [obj flag] eqn:Hb. simpl.
      assert (flag = true) as ->; [|done].
      change flag with (obj, flag).2. rewrite <- Hb.
      apply buildRow_flag. exists (length before), (trim (content hc)).
      by rewrite Hvalue.
    - unfold dataLine. by destruct before.
    - eauto using Forall_impl, lineCell_wfCell. }
  exists (buildRow (content <$> hs) (content <$> dataLine)).1. split.
  - unfold text. rewrite !parseCSV_lines; try done.
    + rewrite fmap_app, List.filter_app, flat_map_app, fmap_cons.
      f_equal. simpl List.filter. rewrite Hdataline.
      simpl flat_map. by rewrite Hrow.
    + apply Forall_app. split; [done|]. by apply Forall_cons.
  - apply buildRow_lookup.
    repeat split; try done. exists (length before).
    repeat split; try done. intros j' Hj' Hk'. unfold headerAt in Hk'.
    rewrite list_lookup_fmap in Hk'.
    destruct (hs !! j') as [hc'|] eqn:Hhc'; simpl in Hk'; [|done].
    injection Hk' as Hk'. by destruct (Hlater j' hc' Hj' Hhc').
Qed.

Lemma quoted_newline_is_content_witness :
  let header := [Plain (str "id"); Plain (str "note")] in
  let text := λ ds, joinLines (renderLine <$> header :: ds) in
  ∃ row,
    parseCSV (text [[Plain (str "1"); Plain (str "first")];
                    [Plain (str "2");
                     Quoted (str "line1" ++ LF :: str "line2")];
                    [Plain (str "3"); Plain (str "last")]])
    = parseCSV (text [[Plain (str "1"); Plain (str "first")]])
      ++ row :: parseCSV (text [[Plain (str "3"); Plain (str "last")]])
    ∧ row !! str "note" = Some (str "line1" ++ LF :: str "line2").
Proof.
  apply (quoted_newline_is_content
           [Plain (str "id"); Plain (str "note")]
           [[Plain (str "1"); Plain (str "first")]]
           [[Plain (str "3"); Plain (str "last")]]
           [Plain (str "2")] []
           (Plain (str "note")) (str "line1") (str "line2")).
  - repeat constructor; compute_done.
  - repeat constructor; compute_done.
  - repeat constructor; compute_done.
  - repeat constructor; compute_done.
  - constructor.
  - compute_done.
  - compute_done.
  - reflexivity.
  - by vm_compute.
  - by vm_compute.
  - by vm_compute.
  - intros j hc' Hj Hlookup. simpl in Hj.
    destruct j as [|[|j]]; [lia|lia|done].
Defined.

(** C4: when fetching one configured sheet throws, because the transport
    failed or the response is not [ok], and the snapshot can be written,
    the run ends with exit code 0, the written snapshot maps that sheet's
    key to the empty table, and every configured sheet has its table: the
    parsed body where the fetch succeeded. *)
Theorem failed_fetch_is_not_fatal (env : Env) (config : SheetConfig) :
  config ∈ SHEET_CONFIGS →
  (net env config = FetchRejected
   ∨ ∃ body, net env config = FetchResponse false body) →
  existsSync_publicDir env || mkdirSync_ok env = true →
  writeFileSync_ok env = true →
  ∃ output,
    main env = {| exitCode := 0; written := Some output |}
    ∧ sheets output !! key config = Some []
    ∧ (∀ other, other ∈ SHEET_CONFIGS →
                sheets output !! key other = Some (sheetRows (net env) other))
    ∧ (∀ other csvText,
         other ∈ SHEET_CONFIGS →
         net env other = FetchResponse true (Some csvText) →
         sheets output !! key other = Some (parseCSV csvText)).
Proof.
  intros Hin Hfail Hdir Hwrite. exists (buildOutput env).
  destruct SHEET_CONFIGS_keys as [Hnodup Hproto].
  assert (∀ other, other ∈ SHEET_CONFIGS →
            sheets (buildOutput env) !! key other
            = Some (sheetRows (net env) other)) as Hall.
  { intros other Hother. simpl. by apply collectSheets_lookup. }
  repeat split.
  - unfold main. rewrite Hwrite.
    by destruct (existsSync_publicDir env), (mkdirSync_ok env).
  - rewrite Hall by done. unfold sheetRows, fetchSheetData.
    by destruct Hfail as [->|[body ->]].
  - done.
  - intros other csvText Hother Hok. rewrite Hall by done.
    unfold sheetRows, fetchSheetData. by rewrite Hok.
Qed.

Lemma failed_fetch_is_not_fatal_witness :
  let csvText := str "h" ++ LF :: str "v" in
  let env := {| net := λ c, if decide (key c = str "mafia")
                            then FetchRejected
                            else FetchResponse true (Some csvText);
                getFullYear := 2026; getMonth := 0;
                toISOString := str "2026-01-16T12:00:00.000Z";
                existsSync_publicDir := false; mkdirSync_ok := true;
                writeFileSync_ok := true |} in
  ∃ output,
    main env = {| exitCode := 0; written := Some output |}
    ∧ sheets output !! str "mafia" = Some []
    ∧ sheets output !! str "founders" = Some [ {[ str "h" := str "v" ]} ].
Proof.
  intros csvText env.
  destruct (failed_fetch_is_not_fatal env
              {| key := str "mafia"; name := str "Mafia";
                 gid := str "1431246161" |})
    as (output & Hmain & Hfailed & _ & Hothers).
  - compute_done.
  - by left.
  - reflexivity.
  - reflexivity.
  - exists output. split; [done|]. split; [done|].
    apply (Hothers {| key := str "founders"; name := str "founders";
                      gid := str "275207722" |} csvText);
      [compute_done|reflexivity].
Defined.

(** The quotient [(getMonth() + 1) / 3] is a finite double in every
    month, so [Math_ceil] is taken where it is meant. *)
Lemma quarter_quotient_finite (month : Z) :
  (0 ≤ month ≤ 11)%Z →
  ∃ s m e,
    Prim2SF (PrimFloat.div (PrimFloat.add (toNumber month) (toNumber 1))
                           (toNumber 3))
    = S754_finite s m e.
Proof.
  intros Hmonth.
  assert (month = 0 ∨ month = 1 ∨ month = 2 ∨ month = 3 ∨ month = 4
          ∨ month = 5 ∨ month = 6 ∨ month = 7 ∨ month = 8 ∨ month = 9
          ∨ month = 10 ∨ month = 11)%Z as Hcases by lia.
  repeat (destruct Hcases as [->|Hcases]); try subst month;
    vm_compute; by eexists _, _, _.
Qed.

Lemma year_digits (year : Z) :
  (1000 ≤ year ≤ 9999)%Z →
  ∃ d1 d2 d3 d4,
    numberToString year = [d1; d2; d3; d4]
    ∧ isDigit d1 && isDigit d2 && isDigit d3 && isDigit d4 = true.
Proof.
  intros Hyear.
  assert (List.forallb
            (λ n, match numberToString (Z.of_nat n) with
                  | [d1; d2; d3; d4] =>
                      isDigit d1 && isDigit d2 && isDigit d3 && isDigit d4
                  | _ => false
                  end) (seq (Z.to_nat 1000) (Z.to_nat 9000)) = true)
    as Hall by (by vm_compute).
  rewrite List.forallb_forall in Hall.
  specialize (Hall (Z.to_nat year)). rewrite Z2Nat.id in Hall by lia.
  assert (List.In (Z.to_nat year) (seq (Z.to_nat 1000) (Z.to_nat 9000))) as Hin
      by (apply List.in_seq; lia).
  specialize (Hall Hin).
  destruct (numberToString year) as [|d1 [|d2 [|d3 [|d4 [|]]]]]; try done.
  by exists d1, d2, d3, d4.
Qed.

(** C5: for a run in month [m] of 1..12 of a four-digit year, the
    snapshot's quarter number [q] is the ceiling of [m/3], the integer
    with [3(q-1) < m ≤ 3q], and lies in 1..4; its reporting quarter is the
    year's digits, the letter Q and the quarter's digit, and matches
    [^\d{4}Q[1-4]$]. *)
Theorem reporting_quarter_of_month (env : Env) (m : Z) :
  (1 ≤ m ≤ 12)%Z → getMonth env = (m - 1)%Z →
  (1000 ≤ getFullYear env ≤ 9999)%Z →
  let q := reporting_quarter_number (meta (buildOutput env)) in
  (3 * (q - 1) < m ≤ 3 * q)%Z
  ∧ (1 ≤ q ≤ 4)%Z
  ∧ reporting_year (meta (buildOutput env)) = getFullYear env
  ∧ reporting_quarter (meta (buildOutput env))
    = numberToString (getFullYear env) ++ str "Q" ++ numberToString q
  ∧ matchesQuarterPattern (reporting_quarter (meta (buildOutput env))) = true.
Proof.
  intros Hm Hmonth Hyear. simpl. rewrite Hmonth.
  destruct (year_digits _ Hyear) as (d1 & d2 & d3 & d4 & Hdigits & Hd).
  unfold reportingQuarter. rewrite Hdigits.
  assert (m = 1 ∨ m = 2 ∨ m = 3 ∨ m = 4 ∨ m = 5 ∨ m = 6 ∨ m = 7
          ∨ m = 8 ∨ m = 9 ∨ m = 10 ∨ m = 11 ∨ m = 12)%Z as Hcases by lia.
  repeat (destruct Hcases as [->|Hcases]); try subst m;
    (repeat split; [by vm_compute..|]);
    unfold matchesQuarterPattern; simpl; rewrite Hd; by vm_compute.
Qed.

Lemma reporting_quarter_of_month_witness :
  let env := {| net := λ _, FetchRejected;
                getFullYear := 2026; getMonth := 3;
                toISOString := str "2026-04-01T00:00:00.000Z";
                existsSync_publicDir := true; mkdirSync_ok := true;
                writeFileSync_ok := true |} in
  reporting_quarter_number (meta (buildOutput env)) = 2%Z
  ∧ reporting_quarter (meta (buildOutput env)) = str "2026Q2"
  ∧ matchesQuarterPattern (str "2026Q2") = true.
Proof.
  intros env.
  destruct (reporting_quarter_of_month env 4)
    as (_ & _ & _ & Hq & Hpattern); [lia|reflexivity|simpl; lia|].
  split; [by vm_compute|]. split; [by vm_compute|].
  exact Hpattern.
Defined.

(** Every field of every row is a non-empty trimmed cell under a
    non-empty trimmed header. *)
Lemma parseCSV_rows_sparse (csvText : list N)
    (row : gmap (list N) (list N)) (k v : list N) :
  row ∈ parseCSV csvText → row !! k = Some v →
  k ≠ [] ∧ v ≠ [] ∧ ∃ h c, k = trim h ∧ v = trim c.
Proof.
  intros (header & lines & line & _ & _ & Hb)%parseCSV_rows Hkv.
  apply (f_equal fst) in Hb. simpl in Hb. rewrite <- Hb in Hkv.
  apply buildRow_lookup in Hkv as (_ & Hk & j & Hh & Hv & Hne & _).
  repeat split; try done. unfold headerAt in Hh. unfold valueAt in Hv.
  destruct (parseCSVRow header !! j) as [h|]; simpl in Hh; [|done].
  destruct (parseCSVRow line !! j) as [c|]; simpl in Hv; [|congruence].
  exists h, c. split; congruence.
Qed.

(** C6: a row with no field should be dropped.  For a header named
    [__proto__] the assignment stores nothing, yet [rowHasData] is set:
    the row is pushed with no field at all, and the non-empty header with
    its non-empty cell is not in it. *)
Theorem proto_header_row_is_empty :
  let csvText := str "__proto__" ++ LF :: str "x" in
  buildRow [str "__proto__"] [str "x"] = (∅, true)
  ∧ parseCSV csvText = [∅].
Proof. by vm_compute. Qed.

(** C7: a text with fewer than two retained lines has the empty table;
    the empty text, a text of white space only, and a text that is blank
    after its first line feed are such texts. *)
Theorem parseCSV_short_text (csvText h w : list N) :
  ((length (splitLines csvText) < 2)%nat → parseCSV csvText = [])
  ∧ parseCSV [] = []
  ∧ (forallb isWhiteSpace w = true → parseCSV w = [])
  ∧ (LF ∉ h → forallb isWhiteSpace w = true → parseCSV (h ++ w) = []).
Proof.
  assert (∀ text, (length (splitLines text) < 2)%nat → parseCSV text = [])
    as Hshort.
  { intros text Hlen. unfold parseCSV.
    by apply Nat.ltb_lt in Hlen as ->. }
  split; [apply Hshort|]. split; [done|]. split.
  - intros Hw. apply Hshort. unfold splitLines.
    pose proof (lineLoop_blank_length w [] [] false Hw). simpl in *. lia.
  - intros Hlf Hw. apply Hshort. unfold splitLines.
    destruct (lineLoop_no_LF h w [] [] false Hlf) as (cur & q & ->).
    + destruct w as [|c w]; [done|]. simpl in *.
      apply andb_prop in Hw as [Hc _]. intros ->. done.
    + pose proof (lineLoop_blank_length w [] cur q Hw). simpl in *. lia.
Qed.

Lemma parseCSV_short_text_witness :
  parseCSV (str " " ++ [CR; LF; 9]) = []
  ∧ parseCSV (str "name,city" ++ [CR; LF] ++ str "  " ++ [LF]) = [].
Proof.
  split.
  - destruct (parseCSV_short_text [] [] (str " " ++ [CR; LF; 9]))
      as (_ & _ & Hblank & _).
    apply Hblank. reflexivity.
  - destruct (parseCSV_short_text [] (str "name,city" ++ [CR])
                ([LF] ++ str "  " ++ [LF])) as (_ & _ & _ & Hheader).
    apply Hheader; [compute_done|reflexivity].
Defined.

(** C8: on a line written as cells, a quoted cell holding a comma is one
    field, comma included. *)
Theorem parseCSVRow_quoted_comma (before after : list cell) (a b : list N) :
  Forall wfCell before → Forall wfCell after →
  parseCSVRow
    (joinCells (render <$> before ++ Quoted (a ++ COMMA :: b) :: after))
  = (content <$> before) ++ (a ++ COMMA :: b) :: (content <$> after).
Proof.
  intros Hbefore Hafter. rewrite parseCSVRow_cells.
  - by rewrite fmap_app.
  - by destruct before.
  - apply Forall_app. split; [done|]. by apply Forall_cons.
Qed.

Lemma parseCSVRow_quoted_comma_witness :
  parseCSVRow (str "x," ++ DQUOTE :: str "a,b" ++ DQUOTE :: str ",y")
  = [str "x"; str "a,b"; str "y"].
Proof.
  apply (parseCSVRow_quoted_comma [Plain (str "x")] [Plain (str "y")]
           (str "a") (str "b")).
  - repeat constructor; compute_done.
  - repeat constructor; compute_done.
Defined.



(** C10, as stated, fails for the empty name: with two unnamed columns
    nothing is stored under the empty name, whatever the cells hold. *)
Lemma unnamed_columns_store_nothing :
  let headers := parseCSVRow (str ",") in
  let values := parseCSVRow (str "a,b") in
  headers = [[]; []]
  ∧ lastFilled headers values (length headers) [] 1
  ∧ (buildRow headers values).1 !! [] = None
  ∧ ¬ storesLastFilled headers values [].
Proof.
  assert (lastFilled [[]; []] [str "a"; str "b"] 2 [] 1) as Hlast.
  { repeat split; [lia|done|]. intros j' Hj'. lia. }
  intros headers values.
  assert (headers = [[]; []]) as -> by done.
  assert (values = [str "a"; str "b"]) as -> by done.
  split; [done|]. split; [done|]. split; [done|].
  intros H. specialize (H 1%nat Hlast). by vm_compute in H.
Qed.

(** C10, amended: under a non-empty name (other than [__proto__]) that
    one or several columns bear, the row of a data line holds the cell of
    the last such column whose trimmed cell is not empty: it overwrites
    the cells of earlier columns, and later empty cells leave it. *)
Theorem duplicate_header_last_filled_wins (headers values : list (list N))
    (k : list N) :
  k ≠ [] → k ≠ PROTO → storesLastFilled headers values k.
Proof.
  intros Hk Hproto j Hlast. apply buildRow_lookup.
  apply lastFilled_length in Hlast as (Hh & Hv & Hrest).
  repeat split; try done. by exists j.
Qed.

Lemma duplicate_header_last_filled_wins_witness :
  let headers := parseCSVRow (str "id,tag,tag,tag") in
  let values := parseCSVRow (str "7,old,new, ") in
  (buildRow headers values).1 !! str "tag" = Some (str "new").
Proof.
  intros headers values.
  change (Some (str "new")) with (Some (valueAt values 2)).
  apply (duplicate_header_last_filled_wins headers values (str "tag"));
    [done|done|].
  split; [vm_compute; lia|]. split; [done|]. split; [done|].
  intros [|[|[|[|j']]]] Hj'; try done; vm_compute in Hj'; lia.
Defined.

(** * Further properties of the parser and of the snapshot *)

(** ** The row tokenizer *)

Lemma splitOn_nonempty (sep : N) (s : list N) : splitOn sep s ≠ [].
Proof.
  induction s as [|c s IH]; simpl; [done|].
  destruct (c =? sep); [done|]. by destruct (splitOn sep s).
Qed.

Lemma prependFirst_nil (fields : list (list N)) :
  fields ≠ [] → prependFirst [] fields = fields.
Proof. by destruct fields. Qed.

Lemma prependFirst_app (a b : list N) (fields : list (list N)) :
  prependFirst a (prependFirst b fields) = prependFirst (a ++ b) fields.
Proof. destruct fields; simpl; by rewrite ?app_assoc. Qed.

Lemma rowLoop_quote_free (row : list N) (values : list (list N))
    (current : list N) :
  DQUOTE ∉ row →
  rowLoop row values current false
  = values ++ prependFirst current (splitOn COMMA row).
Proof.
  revert values current. induction row as [|c row IH]; intros values cur Hq.
  - simpl. by rewrite app_nil_r.
  - apply not_elem_of_cons in Hq as [Hc Hq].
    apply not_eq_sym, N.eqb_neq in Hc. simpl. rewrite Hc.
    destruct (c =? COMMA); simpl.
    + rewrite IH by done.
      rewrite prependFirst_nil by apply splitOn_nonempty.
      rewrite app_nil_r, <- app_assoc. done.
    + rewrite IH by done. by rewrite prependFirst_app.
Qed.

Lemma joinCells_splitOn (row : list N) : joinCells (splitOn COMMA row) = row.
Proof.
  induction row as [|c row IH]; [done|]. simpl.
  pose proof (splitOn_nonempty COMMA row) as Hne.
  destruct (c =? COMMA) eqn:Hc.
  - apply N.eqb_eq in Hc as ->.
    destruct (splitOn COMMA row) as [|f o] eqn:E; [done|].
    change (joinCells ([] :: f :: o)) with ([] ++ COMMA :: joinCells (f :: o)).
    by rewrite IH.
  - destruct (splitOn COMMA row) as [|f o] eqn:E; [done|]. simpl.
    destruct o as [|f' o]; simpl in *; by rewrite <- IH.
Qed.

Lemma splitOn_no_sep (sep : N) (s : list N) :
  Forall (λ field, sep ∉ field) (splitOn sep s).
Proof.
  induction s as [|c s IH]; simpl.
  - apply Forall_singleton. by intros ?%elem_of_nil.
  - destruct (c =? sep) eqn:Hc.
    + apply Forall_cons. split; [by intros ?%elem_of_nil|done].
    + apply N.eqb_neq in Hc. destruct (splitOn sep s) as [|f o]; simpl.
      * apply Forall_singleton.
        intros [?|?%elem_of_nil]%elem_of_cons; [congruence|done].
      * apply Forall_cons in IH as [Hf Ho]. apply Forall_cons.
        split; [|done]. intros [?|?]%elem_of_cons; [congruence|done].
Qed.

(** X1: a line written as cells, each bare with no quote and no comma or
    quoted with every quote of its content doubled, tokenizes to exactly
    the contents of the cells: commas and quotes inside quoted cells come
    back as they were. *)
Theorem tokenizer_round_trip (cells : list cell) :
  cells ≠ [] → Forall wfCell cells →
  parseCSVRow (renderLine cells) = content <$> cells
  ∧ length (parseCSVRow (renderLine cells)) = length cells.
Proof.
  intros Hne Hwf. unfold renderLine.
  rewrite parseCSVRow_cells by done. by rewrite length_fmap.
Qed.

Lemma tokenizer_round_trip_witness :
  parseCSVRow
    (renderLine [Plain (str "x"); Quoted (str "a," ++ DQUOTE :: str "b")])
  = [str "x"; str "a," ++ DQUOTE :: str "b"].
Proof.
  apply (tokenizer_round_trip
           [Plain (str "x"); Quoted (str "a," ++ DQUOTE :: str "b")]).
  - done.
  - repeat constructor; compute_done.
Defined.

(** X2: on a line with no double quote the tokenizer is plain splitting
    at commas: the fields hold no comma and joined by commas they give
    the line back. *)
Theorem parseCSVRow_quote_free (row : list N) :
  DQUOTE ∉ row →
  parseCSVRow row = splitOn COMMA row
  ∧ joinCells (parseCSVRow row) = row
  ∧ Forall (λ field, COMMA ∉ field) (parseCSVRow row).
Proof.
  intros Hq. unfold parseCSVRow. rewrite rowLoop_quote_free by done.
  simpl. rewrite prependFirst_nil by apply splitOn_nonempty.
  split; [done|]. split; [apply joinCells_splitOn|apply splitOn_no_sep].
Qed.

Lemma parseCSVRow_quote_free_witness :
  parseCSVRow (str "a,,b c,") = [str "a"; []; str "b c"; []]
  ∧ joinCells (parseCSVRow (str "a,,b c,")) = str "a,,b c,".
Proof.
  destruct (parseCSVRow_quote_free (str "a,,b c,")) as (Hsplit & Hjoin & _).
  - compute_done.
  - split; [by rewrite Hsplit|exact Hjoin].
Defined.

(** X3: the tokenizer invents nothing: every character of every field
    is a character of the line. *)
Theorem parseCSVRow_chars (row field : list N) (x : N) :
  field ∈ parseCSVRow row → x ∈ field → x ∈ row.
Proof.
  intros Hfield Hx.
  assert (Forall (Forall (λ c, c ∈ row)) (parseCSVRow row)) as Hall.
  { apply rowLoop_chars; [|done|done]. by apply Forall_forall. }
  rewrite Forall_forall in Hall. specialize (Hall field Hfield).
  rewrite Forall_forall in Hall. by apply Hall.
Qed.

Lemma parseCSVRow_chars_witness : 97 ∈ str "x," ++ DQUOTE :: str "a,b".
Proof.
  apply (parseCSVRow_chars (str "x," ++ DQUOTE :: str "a,b") (str "a,b") 97).
  - vm_compute. apply elem_of_cons. right. apply elem_of_cons. by left.
  - compute_done.
Defined.

(** ** The line splitter *)

Lemma pushLine_filter (lines : list (list N)) (line : list N) :
  pushLine lines line
  = lines ++ List.filter (λ l, truthy (trim l)) [line].
Proof.
  unfold pushLine. simpl.
  destruct (truthy (trim line)); [done|by rewrite app_nil_r].
Qed.

Lemma lineLoop_nonblank (csvText : list N) (lines : list (list N))
    (currentLine : list N) (inQuotes : bool) :
  Forall (λ line, trim line ≠ []) lines →
  Forall (λ line, trim line ≠ [])
         (lineLoop csvText lines currentLine inQuotes).
Proof.
  revert lines currentLine inQuotes.
  induction csvText as [csvText IH] using strong_list_ind.
  intros lines cur inQuotes Hlines.
  assert (∀ line, Forall (λ line, trim line ≠ []) (pushLine lines line))
    as Hpush.
  { intros line. unfold pushLine. destruct (truthy (trim line)) eqn:Ht; [|done].
    apply Forall_app. split; [done|]. apply Forall_singleton.
    by apply truthy_true. }
  destruct csvText as [|char rest]; [apply Hpush|]. simpl.
  destruct (char =? DQUOTE).
  - destruct rest as [|next rest']; [apply Hpush|].
    destruct (inQuotes && (next =? DQUOTE)); apply IH; simpl; done || lia.
  - destruct ((char =? LF) && negb inQuotes);
      [apply IH; [simpl; lia|apply Hpush]|].
    destruct ((char =? CR) && negb inQuotes); apply IH; simpl; done || lia.
Qed.

Lemma lineLoop_quote_free (csvText : list N) (lines : list (list N))
    (currentLine : list N) :
  DQUOTE ∉ csvText →
  lineLoop csvText lines currentLine false
  = lines ++ List.filter (λ l, truthy (trim l))
               (prependFirst currentLine
                  (splitOn LF (List.filter notCR csvText))).
Proof.
  revert lines currentLine.
  induction csvText as [|c rest IH]; intros lines cur Hq.
  - simpl. rewrite app_nil_r. apply pushLine_filter.
  - apply not_elem_of_cons in Hq as [Hc Hq].
    apply not_eq_sym, N.eqb_neq in Hc. simpl lineLoop. rewrite Hc.
    destruct (c =? LF) eqn:Hlf; simpl andb; cbv iota.
    + apply N.eqb_eq in Hlf as ->. rewrite IH by done.
      rewrite prependFirst_nil by apply splitOn_nonempty.
      rewrite pushLine_filter, <- app_assoc. simpl.
      rewrite app_nil_r. by destruct (truthy (trim cur)).
    + destruct (c =? CR) eqn:Hcr; simpl andb; cbv iota.
      * rewrite IH by done. simpl. unfold notCR at 2. by rewrite Hcr.
      * rewrite IH by done. simpl. unfold notCR at 2. rewrite Hcr. simpl.
        rewrite Hlf. by rewrite prependFirst_app.
Qed.

(** From a text on, the first loop goes on as from some state that the
    text alone decides, whatever follows, short of a quote. *)
Lemma lineLoop_app (a : list N) (lines : list (list N))
    (currentLine : list N) (inQuotes : bool) :
  ∃ lines' currentLine',
    ∀ rest, noQuoteAhead rest →
      lineLoop (a ++ rest) lines currentLine inQuotes
      = lineLoop rest lines' currentLine' (inQuotesAfter a inQuotes).
Proof.
  revert lines currentLine inQuotes.
  induction a as [a IH] using strong_list_ind. intros lines cur inQuotes.
  destruct a as [|char a'].
  - by exists lines, cur.
  - simpl. destruct (char =? DQUOTE).
    + destruct a' as [|next a'']; simpl.
      * exists lines, (cur ++ [char]). intros [|next rest'] Hrest; [done|].
        simpl in Hrest. apply N.eqb_neq in Hrest.
        by rewrite Hrest, andb_false_r.
      * destruct (inQuotes && (next =? DQUOTE)).
        -- apply IH. simpl; lia.
        -- apply (IH (next :: a'')). simpl; lia.
    + destruct ((char =? LF) && negb inQuotes); [apply IH; simpl; lia|].
      destruct ((char =? CR) && negb inQuotes); apply IH; simpl; lia.
Qed.

(** X4: every line the splitter retains is non-blank: trimmed, it is not
    the empty string.  In particular the header line is never blank. *)
Theorem splitLines_nonblank (csvText line : list N) :
  line ∈ splitLines csvText → trim line ≠ [].
Proof.
  intros Hline.
  pose proof (lineLoop_nonblank csvText [] [] false (Forall_nil_2 _)) as Hall.
  rewrite Forall_forall in Hall. by apply Hall.
Qed.

Lemma splitLines_nonblank_witness : trim (str "a,b") ≠ [].
Proof.
  apply (splitLines_nonblank (str " " ++ LF :: str "a,b" ++ [LF; LF]));
    compute_done.
Defined.

(** X5: on a text with no double quote the line splitter is plain
    splitting: drop the carriage returns, cut at the line feeds, drop the
    blank pieces. *)
Theorem splitLines_quote_free (csvText : list N) :
  DQUOTE ∉ csvText →
  splitLines csvText
  = List.filter (λ l, truthy (trim l))
      (splitOn LF (List.filter notCR csvText)).
Proof.
  intros Hq. unfold splitLines. rewrite lineLoop_quote_free by done.
  by rewrite prependFirst_nil by apply splitOn_nonempty.
Qed.

Lemma splitLines_quote_free_witness :
  splitLines (str "a,b" ++ [CR; LF; LF] ++ str " " ++ [LF] ++ str "1,2")
  = [str "a,b"; str "1,2"].
Proof.
  rewrite splitLines_quote_free; [reflexivity|compute_done].
Defined.

Lemma filter_notCR_quote_free (csvText : list N) :
  DQUOTE ∉ csvText → DQUOTE ∉ List.filter notCR csvText.
Proof.
  intros Hq Hin. apply Hq. apply list_elem_of_In in Hin.
  apply List.filter_In in Hin as [Hin _]. by apply list_elem_of_In.
Qed.

Lemma filter_notCR_idemp (csvText : list N) :
  List.filter notCR (List.filter notCR csvText) = List.filter notCR csvText.
Proof.
  induction csvText as [|c rest IH]; [done|]. simpl.
  destruct (notCR c) eqn:Hc; [|done]. simpl. by rewrite Hc, IH.
Qed.

(** X6: on a text with no double quote, carriage returns play no part:
    the text with all of them removed has the same table, so CRLF and LF
    line endings parse alike. *)
Theorem parseCSV_ignores_CR (csvText : list N) :
  DQUOTE ∉ csvText →
  parseCSV (List.filter notCR csvText) = parseCSV csvText.
Proof.
  intros Hq. unfold parseCSV, splitLines.
  rewrite !lineLoop_quote_free by auto using filter_notCR_quote_free.
  by rewrite filter_notCR_idemp.
Qed.

Lemma parseCSV_ignores_CR_witness :
  parseCSV (str "h" ++ LF :: str "v") = parseCSV (str "h" ++ CR :: LF :: str "v" ++ [CR]).
Proof.
  apply (parseCSV_ignores_CR (str "h" ++ CR :: LF :: str "v" ++ [CR])).
  compute_done.
Defined.

(** X7: after a text that ends outside quotes, a line feed followed by
    white space only changes nothing: a final newline and trailing blank
    lines do not show in the table. *)
Theorem parseCSV_trailing_blank (csvText w : list N) :
  inQuotesAfter csvText false = false → forallb isWhiteSpace w = true →
  parseCSV (csvText ++ LF :: w) = parseCSV csvText.
Proof.
  intros Hmode Hw.
  assert (splitLines (csvText ++ LF :: w) = splitLines csvText) as Hlines.
  { unfold splitLines.
    destruct (lineLoop_app csvText [] [] false) as (lines & cur & Happ).
    rewrite (Happ (LF :: w)) by by compute.
    rewrite <- (app_nil_r csvText) at 2. rewrite (Happ []) by done.
    rewrite Hmode, lineLoop_LF. by rewrite lineLoop_blank. }
  unfold parseCSV. by rewrite Hlines.
Qed.

Lemma parseCSV_trailing_blank_witness :
  let csvText := str "h" ++ LF :: DQUOTE :: str "a" ++ LF :: str "b" ++ [DQUOTE] in
  parseCSV (csvText ++ LF :: [CR; LF; 32; LF]) = parseCSV csvText.
Proof.
  intros csvText. apply parseCSV_trailing_blank; reflexivity.
Defined.

(** ** The object of one data line, again *)

Lemma rowUpTo_ext (headers values values' : list (list N)) (n : nat) :
  (∀ j, (j < n)%nat → valueAt values j = valueAt values' j) →
  rowUpTo headers values n = rowUpTo headers values' n.
Proof.
  induction n as [|n IH]; intros Hsame; [done|].
  rewrite !rowUpTo_S, IH by (intros; apply Hsame; lia).
  unfold fieldStep. by rewrite (Hsame n) by lia.
Qed.

(** X8: the row of a data line depends on no more values than there are
    headers, and a line that is too short reads as if it ended in empty
    cells: values beyond the last header are ignored, and missing values
    are absent fields. *)
Theorem buildRow_surplus_and_padding (headers values : list (list N))
    (n : nat) :
  buildRow headers (take (length headers) values) = buildRow headers values
  ∧ buildRow headers (values ++ replicate n []) = buildRow headers values.
Proof.
  unfold buildRow. split; apply rowUpTo_ext; intros j Hj; unfold valueAt.
  - by rewrite lookup_take_lt.
  - destruct (values !! j) as [v|] eqn:Hv.
    + by rewrite (lookup_app_l_Some _ _ _ _ Hv).
    + apply lookup_ge_None in Hv. rewrite lookup_app_r by done.
      by destruct (replicate n [] !! (j - length values)%nat)
        as [v|] eqn:Hr; [apply lookup_replicate_1 in Hr as [-> _]|].
Qed.

(** X9: under a header name that a single column bears (not empty, not
    [__proto__]), the row holds the trimmed cell of that column, and it
    holds nothing under that name when the cell is empty or missing. *)
Theorem buildRow_positional (headers values : list (list N)) (j : nat)
    (k : list N) :
  headerAt headers j = Some k →
  (∀ i, headerAt headers i = Some k → i = j) →
  k ≠ [] → k ≠ PROTO →
  (buildRow headers values).1 !! k
  = if truthy (valueAt values j) then Some (valueAt values j) else None.
Proof.
  intros Hj Huniq Hk Hproto. destruct (truthy (valueAt values j)) eqn:Hv.
  - apply truthy_true in Hv. apply buildRow_lookup.
    repeat split; try done. exists j. repeat split; try done.
    intros j' Hj' Hk'. apply Huniq in Hk'. lia.
  - destruct (valueAt values j) eqn:Hvj; [|done].
    destruct (_ !! k) as [v|] eqn:Hlookup; [|done].
    apply buildRow_lookup in Hlookup as (_ & _ & i & Hi & Hvi & Hne & _).
    apply Huniq in Hi as ->. congruence.
Qed.

Lemma buildRow_positional_witness :
  let headers := parseCSVRow (str "id, name ,city") in
  (buildRow headers (parseCSVRow (str "7, Ann")) ).1 !! str "name"
  = Some (str "Ann")
  ∧ (buildRow headers (parseCSVRow (str "7, Ann")) ).1 !! str "city" = None.
Proof.
  intros headers. split.
  - apply (buildRow_positional headers (parseCSVRow (str "7, Ann")) 1
             (str "name")); try done.
    intros [|[|[|[|i]]]]; by vm_compute.
  - apply (buildRow_positional headers (parseCSVRow (str "7, Ann")) 2
             (str "city")); try done.
    intros [|[|[|[|i]]]]; by vm_compute.
Defined.

(** ** trim, again *)

Lemma trimStart_clean (s : list N) : startsClean (trimStart s).
Proof.
  induction s as [|c s IH]; simpl; [done|].
  by destruct (isWhiteSpace c) eqn:Hc.
Qed.

Lemma trimStart_fixed (s : list N) : startsClean s → trimStart s = s.
Proof. destruct s as [|c s]; simpl; [done|]. by intros ->. Qed.

Lemma trimEnd_prefix (s : list N) : trimEnd s `prefix_of` s.
Proof.
  apply prefix_suffix_reverse. unfold trimEnd.
  rewrite reverse_involutive. apply trimStart_suffix.
Qed.

Lemma trim_idemp (s : list N) : trim (trim s) = trim s.
Proof.
  assert (startsClean (trim s)) as Hstart.
  { unfold trim. pose proof (trimStart_clean s) as Hclean.
    destruct (trimEnd_prefix (trimStart s)) as [k Hk].
    destruct (trimEnd (trimStart s)) as [|c u]; [done|].
    rewrite Hk in Hclean. done. }
  unfold trim at 1. rewrite trimStart_fixed by done.
  unfold trim, trimEnd. rewrite reverse_involutive.
  by rewrite (trimStart_fixed (trimStart _)) by apply trimStart_clean.
Qed.

(** ** The table *)

Lemma foldl_rowStep_length (headers : list (list N)) (lines : list (list N))
    (results : list (gmap (list N) (list N))) :
  (length (foldl (rowStep headers) results lines)
   ≤ length results + length lines)%nat.
Proof.
  rewrite foldl_rowStep, length_app. apply Nat.add_le_mono_l.
  induction lines as [|line lines IH]; [done|]. simpl.
  rewrite length_app. unfold rowsOfLine at 1. unfold rowStep.
  destruct (buildRow headers (parseCSVRow line)) as [obj []]; simpl; lia.
Qed.

(** X10: every field of every row comes from the text, column by column:
    its name is the trimmed cell of some column of the first retained
    line, and its value is the trimmed cell of the same column of a later
    retained line. *)
Theorem parseCSV_field_origin (csvText : list N)
    (row : gmap (list N) (list N)) (k v : list N) :
  row ∈ parseCSV csvText → row !! k = Some v →
  ∃ header lines line j,
    splitLines csvText = header :: lines ∧ line ∈ lines
    ∧ headerAt (parseCSVRow header) j = Some k
    ∧ valueAt (parseCSVRow line) j = v.
Proof.
  intros (header & lines & line & Hsplit & Hline & Hb)%parseCSV_rows Hkv.
  apply (f_equal fst) in Hb. simpl in Hb. rewrite <- Hb in Hkv.
  apply buildRow_lookup in Hkv as (_ & _ & j & Hh & Hv & _).
  by exists header, lines, line, j.
Qed.

Lemma parseCSV_field_origin_witness :
  let csvText := str "id,name" ++ LF :: str "7, Ann " in
  ∃ header lines line j,
    splitLines csvText = header :: lines ∧ line ∈ lines
    ∧ headerAt (parseCSVRow header) j = Some (str "name")
    ∧ valueAt (parseCSVRow line) j = str "Ann".
Proof.
  intros csvText.
  apply (parseCSV_field_origin csvText
           {[ str "id" := str "7"; str "name" := str "Ann" ]}).
  - vm_compute. apply list_elem_of_singleton. reflexivity.
  - by vm_compute.
Defined.

(** X11: the fields of a row are never empty and never padded: every
    name and every value is non-empty and is its own trim, and no name is
    [__proto__]. *)
Theorem parseCSV_fields_trimmed (csvText : list N)
    (row : gmap (list N) (list N)) (k v : list N) :
  row ∈ parseCSV csvText → row !! k = Some v →
  k ≠ [] ∧ v ≠ [] ∧ trim k = k ∧ trim v = v ∧ k ≠ PROTO.
Proof.
  intros (header & lines & line & _ & _ & Hb)%parseCSV_rows Hkv.
  apply (f_equal fst) in Hb. simpl in Hb. rewrite <- Hb in Hkv.
  apply buildRow_lookup in Hkv as (Hproto & Hk & j & Hh & Hv & Hne & _).
  repeat split; try done.
  - unfold headerAt in Hh.
    destruct (parseCSVRow header !! j) as [h|]; simpl in Hh; [|done].
    injection Hh as <-. apply trim_idemp.
  - unfold valueAt in Hv.
    destruct (parseCSVRow line !! j) as [c|]; simpl in Hv; [|congruence].
    subst v. apply trim_idemp.
Qed.

Lemma parseCSV_fields_trimmed_witness :
  trim (str "Ann") = str "Ann".
Proof.
  destruct (parseCSV_fields_trimmed (str "id,name" ++ LF :: str "7, Ann ")
              {[ str "id" := str "7"; str "name" := str "Ann" ]}
              (str "name") (str "Ann")) as (_ & _ & _ & Hv & _).
  - vm_compute. apply list_elem_of_singleton. reflexivity.
  - by vm_compute.
  - exact Hv.
Defined.

(** X12: a table has at most one row per retained line after the first:
    the header line gives no row and no line gives two. *)
Theorem parseCSV_length (csvText : list N) :
  (length (parseCSV csvText) ≤ pred (length (splitLines csvText)))%nat.
Proof.
  unfold parseCSV. destruct (splitLines csvText) as [|header lines].
  - simpl. lia.
  - destruct (length (header :: lines) <? 2)%nat; [simpl; lia|].
    simpl. rewrite drop_0.
    pose proof (foldl_rowStep_length (parseCSVRow header) lines []).
    simpl in *. lia.
Qed.

(** X13: when no cell of the header line trims to [__proto__], every row
    of the table holds at least one field. *)
Theorem parseCSV_rows_nonempty (csvText header : list N)
    (lines : list (list N)) (row : gmap (list N) (list N)) :
  splitLines csvText = header :: lines →
  PROTO ∉ trim <$> parseCSVRow header →
  row ∈ parseCSV csvText → row ≠ ∅.
Proof.
  intros Hsplit Hproto (header' & lines' & line & Hsplit' & _ & Hb)%parseCSV_rows.
  rewrite Hsplit in Hsplit'. injection Hsplit' as <- <-.
  replace row with (buildRow (parseCSVRow header) (parseCSVRow line)).1
    by by rewrite Hb.
  apply buildRow_nonempty; [|by rewrite Hb].
  intros j Hj. apply Hproto. unfold headerAt in Hj.
  rewrite <- list_lookup_fmap in Hj. by apply list_elem_of_lookup_2 in Hj.
Qed.

Lemma parseCSV_rows_nonempty_witness :
  ({[ str "h" := str "v" ]} : gmap (list N) (list N)) ≠ ∅.
Proof.
  apply (parseCSV_rows_nonempty (str "h" ++ LF :: str "v" ++ LF :: str " ,")
           (str "h") [str "v"; str " ,"]).
  - reflexivity.
  - compute_done.
  - vm_compute. apply list_elem_of_singleton. reflexivity.
Defined.

(** X14: in a text written as a header line that is not blank and data
    lines of cells, data lines add up: the table of the lines [ds]
    followed by the lines [ds'] is the table of [ds] followed by the
    table of [ds']. *)
Theorem parseCSV_lines_app (hs : list cell) (ds ds' : list (list cell)) :
  Forall lineCell hs → trim (renderLine hs) ≠ [] →
  Forall (Forall lineCell) ds → Forall (Forall lineCell) ds' →
  parseCSV (joinLines (renderLine <$> hs :: ds ++ ds'))
  = parseCSV (joinLines (renderLine <$> hs :: ds))
    ++ parseCSV (joinLines (renderLine <$> hs :: ds')).
Proof.
  intros Hhs Hnb%truthy_true Hds Hds'.
  rewrite !parseCSV_lines by (done || by apply Forall_app).
  by rewrite fmap_app, List.filter_app, flat_map_app.
Qed.

Lemma parseCSV_lines_app_witness :
  let hs := [Plain (str "id"); Plain (str "name")] in
  let ann := [Plain (str "1"); Quoted (str "Ann, A.")] in
  let bob := [Plain (str "2"); Plain (str "Bob")] in
  parseCSV (joinLines (renderLine <$> hs :: [ann] ++ [bob]))
  = parseCSV (joinLines (renderLine <$> [hs; ann]))
    ++ parseCSV (joinLines (renderLine <$> [hs; bob])).
Proof.
  intros hs ann bob. apply (parseCSV_lines_app hs [ann] [bob]).
  - repeat constructor; compute_done.
  - by vm_compute.
  - repeat constructor; compute_done.
  - repeat constructor; compute_done.
Defined.

(** ** Writing a table and reading it back *)

Lemma expectedRow_nil_r (names : list (list N)) : expectedRow names [] = ∅.
Proof. unfold expectedRow. by rewrite fmap_nil, zip_with_nil_r. Qed.

Lemma expectedRow_cons (h : list N) (names : list (list N)) (x : list N)
    (values : list (list N)) :
  expectedRow (h :: names) (x :: values)
  = if decide (trim x = []) then expectedRow names values
    else <[h := trim x]> (expectedRow names values).
Proof.
  unfold expectedRow. rewrite fmap_cons. simpl zip_with.
  destruct (decide (trim x = [])) as [Hx|Hx].
  - by rewrite filter_cons_False by (simpl; naive_solver).
  - by rewrite filter_cons_True by done.
Qed.

Lemma expectedRow_lookup (names values : list (list N)) (k v : list N) :
  NoDup names →
  expectedRow names values !! k = Some v ↔
  v ≠ [] ∧ ∃ j, names !! j = Some k ∧ (trim <$> values) !! j = Some v.
Proof.
  revert values. induction names as [|h names IH]; intros values Hnodup.
  - unfold expectedRow. simpl. rewrite lookup_empty.
    split; [done|]. by intros (_ & j & ? & _).
  - apply NoDup_cons in Hnodup as [Hh Hnodup].
    destruct values as [|x values].
    + rewrite expectedRow_nil_r, lookup_empty.
      split; [done|]. by intros (_ & j & _ & ?).
    + rewrite expectedRow_cons.
      assert (expectedRow names values !! k = Some v ↔
              v ≠ [] ∧ ∃ j, (h :: names) !! S j = Some k
                            ∧ (trim <$> x :: values) !! S j = Some v)
        as Htail by (by rewrite IH).
      destruct (decide (trim x = [])) as [Hx|Hx].
      * rewrite Htail. split.
        -- intros (? & j & ? & ?). split; [done|]. by exists (S j).
        -- intros (Hv & [|j] & Hk & Hj); [|split; [done|by exists j]].
           simpl in Hj. congruence.
      * destruct (decide (h = k)) as [->|Hne].
        -- rewrite lookup_insert_eq. split.
           ++ intros [= <-]. split; [done|]. by exists 0%nat.
           ++ intros (_ & [|j] & Hk & Hj); [simpl in Hj; congruence|].
              simpl in Hk. apply list_elem_of_lookup_2 in Hk. done.
        -- rewrite lookup_insert_ne by done. rewrite Htail. split.
           ++ intros (? & j & ? & ?). split; [done|]. by exists (S j).
           ++ intros (Hv & [|j] & Hk & Hj); [|split; [done|by exists j]].
              simpl in Hk. congruence.
Qed.

Lemma content_quotedLine (values : list (list N)) :
  content <$> quotedLine values = values.
Proof.
  unfold quotedLine. induction values as [|v values IH]; [done|].
  rewrite !fmap_cons. by rewrite IH.
Qed.

Lemma quotedLine_lineCell (values : list (list N)) :
  Forall (λ v, DQUOTE ∉ v) values → Forall lineCell (quotedLine values).
Proof.
  unfold quotedLine. induction 1 as [|v values Hv _ IH]; [done|].
  rewrite fmap_cons. by apply Forall_cons.
Qed.

Lemma quotedLine_nonblank (values : list (list N)) :
  values ≠ [] → truthy (trim (renderLine (quotedLine values))) = true.
Proof.
  destruct values as [|v values]; [done|]. intros _.
  apply (truthy_trim _ DQUOTE); [|done].
  apply (elem_of_joinCells DQUOTE (render (Quoted v))).
  - simpl. apply elem_of_cons. by left.
  - simpl. apply elem_of_cons. by left.
Qed.

(** Under distinct names that are not empty, are their own trim and are
    not [__proto__], the loop over [j] builds the expected row, and sets
    [rowHasData] exactly when that row holds a field. *)
Lemma buildRow_expectedRow (names values : list (list N)) :
  NoDup names →
  Forall (λ h, h ≠ [] ∧ trim h = h ∧ h ≠ PROTO) names →
  buildRow names values
  = (expectedRow names values,
     bool_decide (expectedRow names values ≠ ∅)).
Proof.
  intros Hnodup Hnames. rewrite Forall_forall in Hnames.
  assert (∀ j k, headerAt names j = Some k ↔ names !! j = Some k) as Hheader.
  { intros j k. unfold headerAt. destruct (names !! j) as [h|] eqn:Hh; [|done].
    simpl. destruct (Hnames h (list_elem_of_lookup_2 _ _ _ Hh)) as (_ & -> & _).
    done. }
  assert ((buildRow names values).1 = expectedRow names values) as Hobj.
  { apply map_eq. intros k. apply option_eq. intros v.
    rewrite buildRow_lookup, expectedRow_lookup by done. split.
    - intros (_ & _ & j & Hh%Hheader & Hv & Hne & _). split; [done|].
      exists j. split; [done|]. unfold valueAt in Hv.
      destruct ((trim <$> values) !! j) eqn:E;
        rewrite list_lookup_fmap in E; rewrite E in Hv; simpl in Hv;
        congruence.
    - intros (Hne & j & Hk & Hv).
      destruct (Hnames k (list_elem_of_lookup_2 _ _ _ Hk)) as (? & _ & ?).
      repeat split; try done. exists j.
      rewrite list_lookup_fmap in Hv.
      split; [by apply Hheader|]. split; [unfold valueAt; by rewrite Hv|].
      split; [done|]. intros j' Hj' Hk'%Hheader.
      pose proof (NoDup_lookup _ _ _ _ Hnodup Hk Hk'). lia. }
  destruct (buildRow names values) as [obj flag] eqn:Hb. simpl in Hobj.
  subst obj. f_equal. destruct flag.
  - symmetry. apply bool_decide_eq_true.
    change (expectedRow names values) with (expectedRow names values, true).1.
    rewrite <- Hb. apply buildRow_nonempty; [|by rewrite Hb].
    intros j Hj%Hheader.
    by destruct (Hnames PROTO (list_elem_of_lookup_2 _ _ _ Hj)) as (_ & _ & ?).
  - symmetry. apply bool_decide_eq_false. intros Hne. apply Hne.
    apply map_empty. intros k.
    destruct (expectedRow names values !! k) as [v|] eqn:Hkv; [|done].
    assert ((buildRow names values).2 = true) as Hflag; [|by rewrite Hb in Hflag].
    apply buildRow_flag.
    assert ((buildRow names values).1 !! k = Some v) as Hlookup
        by by rewrite Hb.
    apply buildRow_lookup in Hlookup as (_ & ? & j & ? & <- & ? & _).
    by exists j, k.
Qed.

(** X15: a table written with every cell quoted reads back as it was.
    For distinct header names that are not empty, hold no quote and no
    white space at either end and are not [__proto__], and rows of values
    that hold no quote (commas, line feeds and carriage returns are
    fine), the table of the written text has, for each row in order, the
    object that maps each name to the trimmed value of its column, empty
    values left out; a row with no value left gives no object. *)
Theorem quotedTable_round_trip (names : list (list N))
    (rows : list (list (list N))) :
  names ≠ [] → NoDup names →
  Forall (λ h, (DQUOTE ∉ h) ∧ h ≠ [] ∧ trim h = h ∧ h ≠ PROTO) names →
  Forall (Forall (λ v, DQUOTE ∉ v)) rows →
  parseCSV (quotedTable names rows)
  = flat_map (λ values, if decide (expectedRow names values = ∅) then []
                        else [expectedRow names values]) rows.
Proof.
  intros Hne Hnodup Hnames Hrows. unfold quotedTable.
  assert (∀ values,
            values ≠ [] → Forall (λ v, DQUOTE ∉ v) values →
            rowsOfLine names (renderLine (quotedLine values))
            = if decide (expectedRow names values = ∅) then []
              else [expectedRow names values]) as Hline.
  { intros values Hvne Hvalues. unfold rowsOfLine, rowStep, renderLine.
    rewrite parseCSVRow_cells.
    - rewrite content_quotedLine, buildRow_expectedRow.
      + by destruct (decide (expectedRow names values = ∅));
          [rewrite bool_decide_eq_false_2 by naive_solver
          |rewrite bool_decide_eq_true_2].
      + done.
      + eapply Forall_impl; [done|]. by intros h (_ & ? & ? & ?).
    - by destruct values.
    - eapply Forall_impl; [by apply quotedLine_lineCell|].
      apply lineCell_wfCell. }
  rewrite parseCSV_lines.
  - rewrite content_quotedLine.
    induction Hrows as [|values rows Hvalues Hrows IH]; [done|].
    rewrite !fmap_cons. simpl List.filter. simpl flat_map. rewrite <- IH.
    destruct (decide (values = [])) as [->|Hvne].
    + rewrite expectedRow_nil_r. by rewrite decide_True.
    + rewrite quotedLine_nonblank by done. simpl flat_map.
      by rewrite Hline.
  - apply quotedLine_lineCell. eapply Forall_impl; [done|].
    by intros h (? & _).
  - clear Hne Hnodup Hnames Hline.
    induction Hrows as [|values rows Hvalues _ IH]; [done|].
    rewrite fmap_cons. apply Forall_cons.
    split; [by apply quotedLine_lineCell|done].
  - by apply quotedLine_nonblank.
Qed.

Lemma quotedTable_round_trip_witness :
  parseCSV (quotedTable [str "id"; str "note"]
              [[str "1"; str " a, b" ++ LF :: str "c "];
               [str " "; []];
               [str "3"]])
  = [ {[ str "id" := str "1"; str "note" := str "a, b" ++ LF :: str "c" ]};
      {[ str "id" := str "3" ]} ].
Proof.
  rewrite quotedTable_round_trip.
  - by vm_compute.
  - done.
  - compute_done.
  - repeat constructor; compute_done.
  - repeat constructor; compute_done.
Defined.

(** ** The sheets of the snapshot *)

Lemma foldl_sheetStep_keys (net : SheetConfig -> FetchOutcome)
    (configs : list SheetConfig) (k : list N)
    (sheetsData : gmap (list N) (list (gmap (list N) (list N)))) :
  is_Some (foldl (sheetStep net) sheetsData configs !! k) ↔
  is_Some (sheetsData !! k) ∨ (k ≠ PROTO ∧ k ∈ key <$> configs).
Proof.
  revert sheetsData. induction configs as [|c configs IH]; intros sheetsData.
  - simpl. split; [by left|]. intros [?|[_ ?%elem_of_nil]]; done.
  - simpl. rewrite IH, sheetStep_obj_set. unfold obj_set.
    rewrite elem_of_cons. destruct (decide (key c = PROTO)) as [Hc|Hc].
    + split.
      * intros [?|[? ?]]; [by left|right; auto].
      * intros [?|[? [->|?]]]; [by left|done|by right].
    + rewrite lookup_insert_is_Some. split.
      * intros [[<-|[_ ?]]|[? ?]]; [right; auto|by left|right; auto].
      * intros [?|[? [->|?]]]; [|left; by left|by right].
        left. destruct (decide (key c = k)); [by left|by right].
Qed.

(** X16: whatever the network does, the sheets of the snapshot are keyed
    by exactly the configured keys: each configured sheet has an entry,
    fetched or not, and there is no other entry. *)
Theorem snapshot_keys (env : Env) (net' : SheetConfig -> FetchOutcome)
    (configs : list SheetConfig) (k : list N) :
  (is_Some (collectSheets net' configs !! k)
   ↔ k ≠ PROTO ∧ k ∈ key <$> configs)
  ∧ (is_Some (sheets (buildOutput env) !! k) ↔ k ∈ key <$> SHEET_CONFIGS).
Proof.
  assert (∀ net cs, is_Some (collectSheets net cs !! k)
                    ↔ k ≠ PROTO ∧ k ∈ key <$> cs) as Hkeys.
  { intros net cs. unfold collectSheets. rewrite foldl_sheetStep_keys.
    rewrite lookup_empty. split; [|by right].
    by intros [[? ?]|?]. }
  split; [apply Hkeys|]. simpl. rewrite Hkeys.
  split; [by intros [_ ?]|]. intros Hk. split; [|done].
  intros ->. by apply (proj2 SHEET_CONFIGS_keys).
Qed.

(** X17: a key configured more than once keeps the table of the last
    sheet configured with it: each sheet overwrites what an earlier one
    stored under its key. *)
Theorem collectSheets_last_wins (net : SheetConfig -> FetchOutcome)
    (before after : list SheetConfig) (config : SheetConfig) :
  key config ≠ PROTO → key config ∉ key <$> after →
  collectSheets net (before ++ config :: after) !! key config
  = Some (sheetRows net config).
Proof.
  intros Hproto Hafter. unfold collectSheets. rewrite foldl_app. simpl.
  rewrite foldl_sheetStep_other by done.
  rewrite sheetStep_obj_set. unfold obj_set.
  rewrite decide_False by done. apply lookup_insert_eq.
Qed.

Lemma collectSheets_last_wins_witness :
  let old := {| key := str "k"; name := str "old"; gid := str "1" |} in
  let new := {| key := str "k"; name := str "new"; gid := str "2" |} in
  let net := λ c, if decide (gid c = str "1")
                  then FetchResponse true (Some (str "h" ++ LF :: str "v"))
                  else FetchResponse false None in
  collectSheets net ([old] ++ new :: []) !! str "k" = Some [].
Proof.
  intros old new net.
  apply (collectSheets_last_wins net [old] [] new); [done|compute_done].
Defined.

(** ** The reporting quarter *)

Lemma str_inj (s t : string) : str s = str t → s = t.
Proof.
  unfold str. intros H.
  rewrite <- (string_of_list_ascii_of_string s).
  rewrite <- (string_of_list_ascii_of_string t). f_equal.
  revert H. generalize (list_ascii_of_string s) (list_ascii_of_string t).
  induction l as [|a l IH]; intros [|b l']; simpl; try done.
  intros [= Hab Hl]. f_equal; [|by apply IH].
  rewrite <- (ascii_N_embedding a), <- (ascii_N_embedding b). by rewrite Hab.
Qed.

Lemma Z_to_int_proper (z : Z) :
  Z.to_int z ≠ Decimal.Pos Decimal.Nil ∧ Z.to_int z ≠ Decimal.Neg Decimal.Nil.
Proof.
  destruct z as [|p|p]; simpl; split; try done; intros [= H];
    by apply (DecimalPos.Unsigned.to_uint_nonnil p).
Qed.

Lemma numberToString_inj (a b : Z) :
  numberToString a = numberToString b → a = b.
Proof.
  unfold numberToString. intros H%str_inj.
  apply (f_equal NilZero.int_of_string) in H.
  destruct (Z_to_int_proper a) as [? ?], (Z_to_int_proper b) as [? ?].
  rewrite !NilZero.isi in H by done. injection H as H.
  rewrite <- (DecimalZ.of_to a), <- (DecimalZ.of_to b). by rewrite H.
Qed.

(** X18: the reporting quarter names its year and quarter without
    ambiguity: two dates give the same string only if they agree on the
    year and on the quarter. *)
Theorem reportingQuarter_inj (year year' quarter quarter' : Z) :
  (1 ≤ quarter ≤ 4)%Z → (1 ≤ quarter' ≤ 4)%Z →
  reportingQuarter year quarter = reportingQuarter year' quarter' →
  year = year' ∧ quarter = quarter'.
Proof.
  intros Hq Hq'. unfold reportingQuarter.
  assert (∀ q, (1 ≤ q ≤ 4)%Z →
               ∃ d, numberToString q = [d]
                    ∧ q = (Z.of_N d - 48)%Z) as Hdigit.
  { intros q Hrange.
    assert (q = 1 ∨ q = 2 ∨ q = 3 ∨ q = 4)%Z as Hcases by lia.
    destruct Hcases as [-> | [-> | [-> | ->]]]; by eexists. }
  destruct (Hdigit quarter Hq) as (d & -> & ->).
  destruct (Hdigit quarter' Hq') as (d' & -> & ->).
  intros H. apply app_inj_2 in H as [Hyear [= <-]]; [|done].
  split; [by apply numberToString_inj|done].
Qed.

Lemma reportingQuarter_inj_witness :
  (2026 = 2026 ∧ quarterNumber 4 = quarterNumber 5)%Z.
Proof.
  apply (reportingQuarter_inj 2026 2026 (quarterNumber 4) (quarterNumber 5));
    by vm_compute.
Defined.
